(** * Trait tables of [mypyli/picrust.py]

    A shallow embedding of the classes [TraitTableEntry] and
    [TraitTableManager] of [src/python/mypyli/picrust.py], and the properties
    of the trait-table specification checked against it.

    Conventions of the embedding:
    - a Python [str] is a [string]; its characters are the code points
      0..255 ([ascii]);
    - a [dict] keyed by trait names is a [gmap string _]: the code only looks
      traits up, tests membership and inserts; the order of the keys is used
      nowhere but in the row order of the data frame handed to pandas;
    - a method that mutates [self] or raises is a computation in the monad
      [state_exn] (state passing with exceptions);
    - a generator is the finite list of its events (what it printed and what
      it yielded, in order) together with the exception that ended it, if any;
    - a file is the text read from it in text mode (newlines already
      translated to the line feed); a text that is written to a file and read
      again goes through the two translations of text mode, [TextFile.reread]. *)

From stdpp Require Import gmap strings list.
From Stdlib Require Import ZArith Ascii DecimalString.

(** ** Python strings *)

Module Str.

Definition TAB : ascii := "009"%char.
Definition NL : ascii := "010"%char.
Definition HASH : ascii := "#"%char.

(** [str.isspace] on one character, for the code points below 256. *)
Definition isspace (c : ascii) : bool :=
  let n := nat_of_ascii c in
  ((9 <=? n) && (n <=? 13)) || ((28 <=? n) && (n <=? 32))
  || (n =? 133) || (n =? 160).

(** [s.rstrip()] *)
Fixpoint rstrip (s : string) : string :=
  match s with
  | EmptyString => EmptyString
  | String c s' =>
      match rstrip s' with
      | EmptyString => if isspace c then EmptyString else String c EmptyString
      | r => String c r
      end
  end.

(** [s.lstrip()] and [s.strip()] *)
Fixpoint lstrip (s : string) : string :=
  match s with
  | EmptyString => EmptyString
  | String c s' => if isspace c then lstrip s' else s
  end.

Definition strip (s : string) : string := lstrip (rstrip s).

Definition cons_head (c : ascii) (l : list string) : list string :=
  match l with
  | [] => [String c EmptyString]
  | h :: t => String c h :: t
  end.

(** [s.split(sep, maxsplit)] for a one-character separator; [maxsplit = None]
    is the call without the second argument.  The result is never empty. *)
Fixpoint split (sep : ascii) (maxsplit : option nat) (s : string) : list string :=
  match s with
  | EmptyString => [EmptyString]
  | String c s' =>
      if decide (c = sep) then
        match maxsplit with
        | Some 0 => [s]
        | Some (S n) => EmptyString :: split sep (Some n) s'
        | None => EmptyString :: split sep None s'
        end
      else cons_head c (split sep maxsplit s')
  end.

(** [sep.join(l)] for a one-character separator *)
Fixpoint join (sep : ascii) (l : list string) : string :=
  match l with
  | [] => EmptyString
  | [x] => x
  | x :: l' => x +:+ String sep (join sep l')
  end.

(** [s.replace(old, new)] for a one-character [old] *)
Fixpoint replace (old : ascii) (new : string) (s : string) : string :=
  match s with
  | EmptyString => EmptyString
  | String c s' =>
      if decide (c = old) then new +:+ replace old new s'
      else String c (replace old new s')
  end.

(** [s.startswith(p)] *)
Fixpoint startswith (p s : string) : bool :=
  match p, s with
  | EmptyString, _ => true
  | String a p', String b s' => if decide (a = b) then startswith p' s' else false
  | String _ _, EmptyString => false
  end.

(** The lines of a text file as the file iterator gives them: each keeps its
    newline, the last one may lack it. *)
Fixpoint readlines (s : string) : list string :=
  match s with
  | EmptyString => []
  | String c s' =>
      if decide (c = NL) then String c EmptyString :: readlines s'
      else cons_head c (readlines s')
  end.

(** [IN.readline()]: the first line, or the empty string at end of file. *)
Definition readline (s : string) : string := hd EmptyString (readlines s).

Fixpoint chars (s : string) : list ascii :=
  match s with
  | EmptyString => []
  | String c s' => c :: chars s'
  end.

(** The value of a decimal digit: [int(c)] on one character, [None] standing
    for [ValueError]. *)
Definition digit (c : ascii) : option N :=
  let n := N_of_ascii c in
  if ((48 <=? n) && (n <=? 57))%N then Some (n - 48)%N else None.

(** The last character is not white space (false on the empty string). *)
Definition ends_solid (s : string) : bool :=
  match last (chars s) with
  | Some c => negb (isspace c)
  | None => false
  end.

End Str.

(** ** Text files

    [open(path, 'r')] and [open(path, 'w')] open a file in text mode with
    universal newlines: on writing, every line feed becomes [os.linesep]; on
    reading, every carriage return, alone or followed by a line feed, becomes
    a line feed.  The encoding is taken to hold every character written. *)

Module TextFile.

Definition CR : ascii := "013"%char.

(** What reading makes of the contents of a file. *)
Fixpoint universal_newlines (s : string) : string :=
  match s with
  | EmptyString => EmptyString
  | String c s' =>
      if decide (c = CR) then
        match s' with
        | String c' s'' =>
            if decide (c' = Str.NL) then String Str.NL (universal_newlines s'')
            else String Str.NL (universal_newlines s')
        | EmptyString => String Str.NL EmptyString
        end
      else String c (universal_newlines s')
  end.

(** [os.linesep]: carriage return and line feed when [crlf] holds (Windows),
    the line feed otherwise. *)
Definition linesep (crlf : bool) : string :=
  if crlf then String CR (String Str.NL EmptyString) else String Str.NL EmptyString.

(** The contents of a file to which [s] was written. *)
Definition contents (crlf : bool) (s : string) : string :=
  Str.replace Str.NL (linesep crlf) s.

(** The text read from a file to which [s] was written. *)
Definition reread (crlf : bool) (s : string) : string :=
  universal_newlines (contents crlf s).

End TextFile.

(** ** Exceptions and the state-and-exception monad *)

Inductive exn : Type :=
  | ValueError (msg : string)
  | IndexError
  | UnboundLocalError (var : string)
  | TypeError.

Definition state_exn (S A : Type) : Type := S → (exn + A) * S.

Global Instance state_exn_ret {S} : MRet (state_exn S) :=
  λ A x s, (inr x, s).

Global Instance state_exn_bind {S} : MBind (state_exn S) :=
  λ A B f m s,
    match m s with
    | (inl e, s') => (inl e, s')
    | (inr x, s') => f x s'
    end.

Definition raise {S A} (e : exn) : state_exn S A := λ s, (inl e, s).
Definition get {S} : state_exn S S := λ s, (inr s, s).
Definition put {S} (s : S) : state_exn S () := λ _, (inr (), s).

(** ** The builtins the module relies on

    [float(s)] and [str(x)] on floats are Python builtins, and the tail of
    [correlation] is pandas ([DataFrame.from_dict], [corr], [loc]).  The
    model takes them as an interface. *)

Class Builtins : Type := {
  pyfloat : Type;
  (** [float(s)]: [None] stands for [ValueError] *)
  float : string → option pyfloat;
  (** [str(x)] for a float [x] *)
  str_float : pyfloat → string;
}.

(** A trait value: what [add_trait] leaves in the dict. *)
Inductive value `{Builtins} : Type :=
  | Numeric (x : pyfloat)
  | Text (s : string).

(** The pandas tail of [correlation] (lines 73-77), for a given data. *)
Class Pandas `{Builtins} : Type := {
  spearman : gmap string (value * value) → exn + pyfloat;
}.

(** A concrete reading of [float] and [str], used to run the model on
    examples: it accepts the plain decimal literals (white space around, a
    sign, digits with at most one point) and keeps them exactly, as sign,
    mantissa and number of decimals.  On these literals Python gives the same
    answers as long as they have at most 15 significant digits and a
    magnitude in [1e-4, 1e16) (no rounding to binary, no exponent in the
    output); it also accepts exponents, [inf], [nan] and underscores, which
    this reading rejects and which no example below uses.  Every theorem is
    stated for an arbitrary [Builtins]. *)
Module DecFloat.

Record t : Type := { neg : bool; mant : N; scale : nat }.

(** The white space [float] strips from both ends: that of [str.isspace]
    less the separators U+001C to U+001F, with which [float] raises. *)
Definition isspace (c : ascii) : bool :=
  let n := nat_of_ascii c in
  Str.isspace c && negb ((28 <=? n) && (n <=? 31)).

Fixpoint rstrip (s : string) : string :=
  match s with
  | EmptyString => EmptyString
  | String c s' =>
      match rstrip s' with
      | EmptyString => if isspace c then EmptyString else String c EmptyString
      | r => String c r
      end
  end.

Fixpoint lstrip (s : string) : string :=
  match s with
  | EmptyString => EmptyString
  | String c s' => if isspace c then lstrip s' else s
  end.

Definition strip (s : string) : string := lstrip (rstrip s).

Fixpoint scan (s : string) (m : N) (sc : nat) (dot seen : bool) : option (N * nat) :=
  match s with
  | EmptyString => if seen then Some (m, sc) else None
  | String c s' =>
      match Str.digit c with
      | Some d => scan s' (m * 10 + d)%N (if dot then S sc else sc) dot true
      | None =>
          if bool_decide (c = "."%char) && negb dot then scan s' m sc true seen
          else None
      end
  end.

Fixpoint normalise (m : N) (sc : nat) : N * nat :=
  match sc with
  | 0 => (m, 0)
  | S sc' => if (m mod 10 =? 0)%N then normalise (m / 10)%N sc' else (m, sc)
  end.

Definition parse (s : string) : option t :=
  let s := strip s in
  let '(sign, body) :=
    match s with
    | String "-"%char r => (true, r)
    | String "+"%char r => (false, r)
    | _ => (false, s)
    end in
  '(m, sc) ← scan body 0%N 0 false false;
  let '(m, sc) := normalise m sc in
  Some {| neg := sign; mant := m; scale := sc |}.

Definition digits (n : N) : string := NilEmpty.string_of_uint (N.to_uint n).

Fixpoint zeros (n : nat) : string :=
  match n with
  | 0 => EmptyString
  | S n' => String "0"%char (zeros n')
  end.

Definition render (x : t) : string :=
  let p := (10 ^ N.of_nat (scale x))%N in
  let frac := digits (mant x mod p)%N in
  (if neg x then "-" else "") +:+ digits (mant x / p)%N +:+ "."
  +:+ (if scale x is 0 then "0"
       else zeros (scale x - String.length frac) +:+ frac).

End DecFloat.

Definition dec_builtins : Builtins :=
  {| pyfloat := DecFloat.t; float := DecFloat.parse; str_float := DecFloat.render |}.

(** ** class TraitTableEntry *)

Module TraitTableEntry.
Section WithBuiltins.
Context `{PD : Pandas}.

(** [name] and [traits] are the two attributes set by [__init__]. *)
Record t : Type := { name : string; traits : gmap string value }.

Definition __init__ (name : string) : t := {| name := name; traits := ∅ |}.

Definition __str__ (self : t) : string := "TraitTableEntry " +:+ name self.

(** [try: value = float(value) except ValueError: pass] *)
Definition convert_value (raw : string) : value :=
  match float raw with
  | Some x => Numeric x
  | None => Text raw
  end.

Definition duplicate_msg (self : t) (trait : string) : string :=
  __str__ self +:+ " already has a trait called '" +:+ trait +:+ "'.".

Definition add_trait (trait raw : string) : state_exn t () :=
  self ← get;
  if decide (is_Some (traits self !! trait)) then
    raise (ValueError (duplicate_msg self trait))
  else
    put {| name := name self;
           traits := <[trait := convert_value raw]> (traits self) |}.

(** The loop of [correlation] that fills [pandas_dict]. *)
Definition shared_step (self other : t) (pandas_dict : gmap string (value * value))
    (trait : string) : gmap string (value * value) :=
  match traits self !! trait with
  | None => pandas_dict
  | Some st =>
      match traits other !! trait with
      | None => pandas_dict
      | Some ot => <[trait := (st, ot)]> pandas_dict
      end
  end.

(** [list(self.traits.keys())] *)
Definition keys (self : t) : list string := (map_to_list (traits self)).*1.

Definition candidates (self : t) (traits : option (list string)) : list string :=
  match traits with
  | None => keys self
  | Some l => l
  end.

Definition pandas_dict (self other : t) (traits : option (list string))
    : gmap string (value * value) :=
  foldl (shared_step self other) ∅ (candidates self traits).

Definition no_shared_msg : string := "No traits were shared between the entries.".

Definition correlation (self other : t) (traits : option (list string))
    : exn + pyfloat :=
  let pd := pandas_dict self other traits in
  if decide (size pd = 0) then inl (ValueError no_shared_msg)
  else spearman pd.

(** [str(entry.traits[trait])] *)
Definition str_value (v : value) : string :=
  match v with
  | Numeric x => str_float x
  | Text s => s
  end.

End WithBuiltins.
End TraitTableEntry.

(** ** Generators *)

(** What a generator of entries does when it is advanced: it may print, and
    it yields. *)
Inductive event `{Builtins} : Type :=
  | Printed (line : string)
  | Yielded (entry : TraitTableEntry.t).

(** A generator run to its end: its events in order and the exception that
    ended it ([None]: plain exhaustion). *)
Record run `{Builtins} : Type := { events : list event; raised : option exn }.

Definition yields `{Builtins} (evs : list event) : list TraitTableEntry.t :=
  omap (λ ev, match ev with Yielded e => Some e | Printed _ => None end) evs.

Definition entries `{Builtins} (r : run) : list TraitTableEntry.t := yields (events r).

(** [for x in l: body(x)] *)
Fixpoint for_each {S A} (body : A → state_exn S ()) (l : list A) : state_exn S () :=
  match l with
  | [] => mret ()
  | x :: l' => body x ;; for_each body l'
  end.

(** ** class TraitTableManager *)

Module TraitTableManager.
Section WithBuiltins.
Context `{PD : Pandas}.
Import Str.

(** [trait_table_f] stands for the text of the file of that name. *)
Record t : Type := {
  trait_table_f : string;
  entry_header : string;
  traits : list string;
}.

Definition __init__ (trait_table_f : string) : t :=
  let headers := split TAB None (rstrip (readline trait_table_f)) in
  {| trait_table_f := trait_table_f;
     entry_header := replace HASH "" (hd "" headers);
     traits := tail headers |}.

(** *** [__iter__] *)

(** [for index, val in enumerate(vals): tte.add_trait(self.traits[index], val)] *)
Fixpoint add_traits (traits : list string) (index : nat) (vals : list string)
    : state_exn TraitTableEntry.t () :=
  match vals with
  | [] => mret ()
  | val :: vals' =>
      match traits !! index with
      | None => raise IndexError
      | Some trait =>
          TraitTableEntry.add_trait trait val ;; add_traits traits (S index) vals'
      end
  end.

(** The frame of the generator: the local variables [name] and
    [trait_values], bound together by the unpacking assignment or not yet
    bound, and what the generator has done so far. *)
Record frame : Type := { locals : option (string * string); out : list event }.

Definition emit (ev : event) : state_exn frame () :=
  fr ← get; put {| locals := locals fr; out := out fr ++ [ev] |}.

Definition assign (name trait_values : string) : state_exn frame () :=
  fr ← get; put {| locals := Some (name, trait_values); out := out fr |}.

(** The body of [for line in IN]. *)
Definition iter_body (traits : list string) (line : string) : state_exn frame () :=
  if decide (line = "") then mret ()
  else
    match split TAB (Some 1) (rstrip line) with
    | [name; trait_values] => assign name trait_values
    | _ => emit (Printed line)
    end ;;
    fr ← get;
    match locals fr with
    | None => raise (UnboundLocalError "name")
    | Some (name, trait_values) =>
        match add_traits traits 0 (split TAB None trait_values)
                (TraitTableEntry.__init__ name) with
        | (inl e, _) => raise e
        | (inr _, tte) => emit (Yielded tte)
        end
    end.

Definition iter_lines (traits : list string) (lines : list string) : state_exn frame () :=
  for_each (iter_body traits) lines.

Definition finish (res : (exn + ()) * frame) : run :=
  {| events := out res.2;
     raised := match res.1 with inl e => Some e | inr _ => None end |}.

Definition __iter__ (self : t) : run :=
  finish (iter_lines (traits self) (tail (readlines (trait_table_f self)))
            {| locals := None; out := [] |}).

(** *** [get_ordered_traits] *)

Inductive token : Type := TInt (n : N) | TChr (c : ascii).

Global Instance token_eq_dec : EqDecision token.
Proof. solve_decision. Defined.

Definition convert (char : ascii) : token :=
  match digit char with
  | Some n => TInt n
  | None => TChr char
  end.

Definition nat_sort (metadata_last : bool) (entry : string) : list token :=
  let entry :=
    if metadata_last && startswith "metadata" entry
    then "~~~" +:+ "metadata" else entry in
  convert <$> chars entry.

(** [a < b] on two elements of a key: an [int] against a [str] raises. *)
Definition token_lt (a b : token) : exn + bool :=
  match a, b with
  | TInt m, TInt n => inr (bool_decide (m < n)%N)
  | TChr c, TChr d => inr (bool_decide (N_of_ascii c < N_of_ascii d)%N)
  | _, _ => inl TypeError
  end.

(** [a < b] on two keys (lists): the first position where they differ
    decides, else the shorter one is the smaller. *)
Fixpoint key_lt (a b : list token) : exn + bool :=
  match a, b with
  | [], [] => inr false
  | [], _ :: _ => inr true
  | _ :: _, [] => inr false
  | x :: a', y :: b' => if decide (x = y) then key_lt a' b' else token_lt x y
  end.

(** [sorted(l, key=key)]: a stable sort that only uses [<] on the keys, each
    computed once; here by insertion from the left. *)
Fixpoint insert_by_key {A} (x : list token * A) (l : list (list token * A))
    : exn + list (list token * A) :=
  match l with
  | [] => inr [x]
  | y :: l' =>
      match key_lt x.1 y.1 with
      | inl e => inl e
      | inr true => inr (x :: y :: l')
      | inr false =>
          match insert_by_key x l' with
          | inl e => inl e
          | inr r => inr (y :: r)
          end
      end
  end.

Definition sorted {A} (key : A → list token) (l : list A) : exn + list A :=
  match
    foldl (λ acc x, match acc with
                    | inl e => inl e
                    | inr s => insert_by_key (key x, x) s
                    end) (inr []) l
  with
  | inl e => inl e
  | inr s => inr (s.*2)
  end.

Definition get_ordered_traits (self : t) (metadata_last : bool) : exn + list string :=
  sorted (nat_sort metadata_last) (traits self).

(** *** [get_subset] *)

(** The loop of [get_subset] over the events of [self.__iter__()].  The
    second component tells where the generator returned: [Some rest] when it
    executed [return], [rest] being the entry just taken and everything after
    it, which are never looked at; [None] when the source ran out. *)
Fixpoint subset_loop (subset_names : list string) (remove : bool)
    (to_find found : nat) (src : list event) : list event * option (list event) :=
  match src with
  | [] => ([], None)
  | Printed line :: src' =>
      let '(o, r) := subset_loop subset_names remove to_find found src' in
      (Printed line :: o, r)
  | Yielded entry :: src' =>
      if bool_decide (found = to_find) && negb remove then ([], Some src)
      else
        let first := if bool_decide (found = to_find) then [Yielded entry] else [] in
        let '(second, found') :=
          if bool_decide (TraitTableEntry.name entry ∈ subset_names) then
            if negb remove then ([Yielded entry], S found) else ([], found)
          else
            if remove then ([Yielded entry], S found) else ([], found) in
        let '(o, r) := subset_loop subset_names remove to_find found' src' in
        (first ++ second ++ o, r)
  end.

Definition subset_of_run (subset_names : list string) (remove : bool) (src : run) : run :=
  let '(o, r) := subset_loop subset_names remove (length subset_names) 0 (events src) in
  {| events := o;
     raised := match r with Some _ => None | None => raised src end |}.

Definition get_subset (self : t) (subset_names : list string) (remove : bool) : run :=
  subset_of_run subset_names remove (__iter__ self).

(** *** [write_entry] *)

Definition missing_msg (entry : TraitTableEntry.t) (trait : string) : string :=
  "Entry " +:+ TraitTableEntry.__str__ entry +:+ " doesn't have trait "
  +:+ trait +:+ ". Writting 'NA'".

(** One pass of the loop: the field appended to [to_write] and the warning
    logged, if any. *)
Definition field (entry : TraitTableEntry.t) (trait : string) : string * list string :=
  match TraitTableEntry.traits entry !! trait with
  | Some v => (TraitTableEntry.str_value v, [])
  | None => ("NA", [missing_msg entry trait])
  end.

Definition row (entry : TraitTableEntry.t) (traits : list string) : string :=
  join TAB (TraitTableEntry.name entry :: ((λ trait, (field entry trait).1) <$> traits))
  +:+ String NL "".

(** [fh] is the text written to the handle so far; the second component is
    what was sent to [LOG.warning]. *)
Definition write_entry (entry : TraitTableEntry.t) (fh : string) (traits : list string)
    : string * list string :=
  (fh +:+ row entry traits,
   mjoin ((λ trait, (field entry trait).2) <$> traits)).

End WithBuiltins.
End TraitTableManager.

(** Reading back what a writer left in a file: the text written is data
    lines only; the lines read from the file are parsed against the given
    trait names. *)
Definition reparse_rows `{Builtins} (crlf : bool) (traits : list string) (text : string)
    : run :=
  TraitTableManager.finish
    (TraitTableManager.iter_lines traits (Str.readlines (TextFile.reread crlf text))
       {| TraitTableManager.locals := None; TraitTableManager.out := [] |}).

(** The claims of the specification read as functions, for comparison with
    the code. *)
Module Spec.

(** "with a single leading comment marker character (if present) stripped" *)
Definition strip_single_marker (s : string) : string :=
  match s with
  | String c r => if decide (c = Str.HASH) then r else s
  | EmptyString => s
  end.

(** "none of them should ever abort an entire table scan": no scan ends in
    the error [add_trait] raises. *)
Definition scan_never_aborts `{Builtins} : Prop :=
  ∀ (trait_table_f msg : string),
    raised (TraitTableManager.__iter__ (TraitTableManager.__init__ trait_table_f))
    ≠ Some (ValueError msg).

(** "for any Entry with trait set T written via RowWriter using trait order T,
    re-parsing the produced row (given the same header) reproduces identical
    name and values for every trait in T that was present" *)
Definition round_trip `{Builtins} : Prop :=
  ∀ (crlf : bool) (e : TraitTableEntry.t) (order : list string),
    NoDup order →
    (∀ trait, trait ∈ order ↔ is_Some (TraitTableEntry.traits e !! trait)) →
    ∃ e',
      entries (reparse_rows crlf order (TraitTableManager.write_entry e "" order).1) = [e']
      ∧ TraitTableEntry.name e' = TraitTableEntry.name e
      ∧ ∀ trait, trait ∈ order →
          TraitTableEntry.traits e' !! trait = TraitTableEntry.traits e !! trait.

End Spec.

(** Sample tables: a row is the tab-joined fields plus a newline. *)
Definition table_line (fields : list string) : string :=
  Str.join Str.TAB fields +:+ String Str.NL "".

Definition table_text (rows : list (list string)) : string :=
  String.concat "" (table_line <$> rows).

(** Pandas is not run: a place holder for the closed examples. *)
Definition no_pandas : @Pandas dec_builtins :=
  {| spearman := λ _, inl (ValueError "pandas is not modelled") |}.

(** The pair [correlation] records for a trait both entries have. *)
Definition shared_pair `{Builtins} (self other : TraitTableEntry.t) (trait : string)
    : option (value * value) :=
  st ← TraitTableEntry.traits self !! trait;
  ot ← TraitTableEntry.traits other !! trait;
  Some (st, ot).

(** A table with a blank line between two rows, and one whose first data
    line has no tab. *)
Definition blank_line_table : string :=
  table_text [["#OTU"; "t1"]; ["x"; "1"]; []; ["y"; "2"]].

Definition tabless_first_table : string :=
  table_text [["#OTU"; "t1"]; ["x"]; ["y"; "2"]].

(** A table whose header names the trait [t] twice. *)
Definition duplicate_header_table : string :=
  table_text [["#OTU"; "t"; "t"]; ["w"; "0"]; ["x"; "1"; "2"]; ["y"; "3"]].

Definition entry1 `{Builtins} (name trait raw : string) : TraitTableEntry.t :=
  {| TraitTableEntry.name := name;
     TraitTableEntry.traits := {[ trait := TraitTableEntry.convert_value raw ]} |}.

(** A table with the entries [a], [b], [c], [d]. *)
Definition abcd_table : string :=
  table_text [["#OTU"; "t1"]; ["a"; "1"]; ["b"; "2"]; ["c"; "3"]; ["d"; "4"]].

(** The same table with a blank line after the row of [b]. *)
Definition abcd_blank_table : string :=
  table_text [["#OTU"; "t1"]; ["a"; "1"]; ["b"; "2"]; []; ["c"; "3"]; ["d"; "4"]].

(** A source that yields the given entries and ends normally. *)
Definition run_of `{Builtins} (es : list TraitTableEntry.t) : run :=
  {| events := Yielded <$> es; raised := None |}.

(** The trait names of the natural-sort example. *)
Definition ordered_example : list string :=
  ["trait2"; "trait10"; "metadata_b"; "trait1"; "metadata_a"].

(** A header whose first field has two leading markers and one inside. *)
Definition marker_table : string := table_text [["##OTU#ID"; "t1"]; ["x"; "1"]].

(** The keys of two names compare without [TypeError]. *)
Definition comparable (a b : string) : bool :=
  match TraitTableManager.key_lt (TraitTableManager.nat_sort true a)
          (TraitTableManager.nat_sort true b) with
  | inr _ => true
  | inl _ => false
  end.

(** No tab, no line feed and no carriage return occurs in the string. *)
Definition clean (s : string) : bool :=
  forallb (λ c, negb (bool_decide (c = Str.TAB)) && negb (bool_decide (c = Str.NL))
                && negb (bool_decide (c = TextFile.CR)))
    (Str.chars s).

(** A text with a carriage return inside. *)
Definition with_return (before after : string) : string :=
  before +:+ String TextFile.CR after.

(** The entry made by one call of [add_trait] on a new entry. *)
Definition entry_of_raw `{Builtins} (name trait raw : string) : TraitTableEntry.t :=
  (TraitTableEntry.add_trait trait raw (TraitTableEntry.__init__ name)).2.

(** An entry with a number and a text, as [__iter__] builds it. *)
Definition sample_entry `{Builtins} : TraitTableEntry.t :=
  (TraitTableManager.add_traits ["t1"; "t2"] 0 ["2.5"; "lo w"]
     (TraitTableEntry.__init__ "x")).2.

From Stdlib Require Import Sorting.Sorted DecimalN.

(** ** The module-level readers *)

Module Picrust.
Import Str.

Definition BAR : ascii := "|"%char.
Definition SEMI : ascii := ";"%char.

(** [s[:-1]] *)
Fixpoint but_last (s : string) : string :=
  match s with
  | EmptyString => EmptyString
  | String c EmptyString => EmptyString
  | String c s' => String c (but_last s')
  end.

(** [l[-1]] of a list that is not empty (the result of a [split]); [hd] is
    [l[0]]. *)
Definition last_field (l : list string) : string := default "" (last l).

(** The key a pathway is filed under: [";".join(levels[:level])]. *)
Definition ko_key (level : nat) (pathway : string) : string :=
  join SEMI (take level (split SEMI None pathway)).

(** The [try] statement of [get_ko_by_function]: append to the list of the
    key, or start it on [KeyError].  Neither the slice nor the join raises
    [IndexError], so the third handler is never entered. *)
Definition ko_file (level : nat) (ko_name : string)
    (data : gmap string (list string)) (pathway : string) : gmap string (list string) :=
  let key := ko_key level pathway in
  match data !! key with
  | Some names => <[key := names ++ [ko_name]]> data
  | None => <[key := [ko_name]]> data
  end.

(** The body of [for line in IN] in [get_ko_by_function]. *)
Definition ko_line (level : nat) (data : gmap string (list string)) (line : string)
    : gmap string (list string) :=
  let fields := split TAB None (rstrip line) in
  let ko_name := hd "" fields in
  let ko_pathways := last_field fields in
  foldl (ko_file level ko_name) data (split BAR None ko_pathways).

Definition level_msg : string := "Level must be 1, 2, or 3.".

Definition get_ko_by_function (ko_metadata_f : string) (level : Z)
    : exn + gmap string (list string) :=
  if bool_decide (level ∈ [1; 2; 3]%Z) then
    inr (foldl (ko_line (Z.to_nat level)) ∅ (tail (readlines ko_metadata_f)))
  else inl (ValueError level_msg).

(** The message of the [ValueError] of an unpacking into two names. *)
Definition unpack_msg (got : nat) : string :=
  if got <? 2 then "not enough values to unpack (expected 2, got 1)"
  else "too many values to unpack (expected 2)".

(** The body of [for line in IN] in [get_plant_associated_kos]: [inl] when
    the unpacking raises. *)
Definition plant_line (data : gmap string (list string)) (line : string)
    : exn + gmap string (list string) :=
  match split TAB None (but_last line) with
  | [lineage; kos] =>
      inr (<[lineage := if decide (kos = "") then [] else split SEMI None kos]> data)
  | fields => inl (ValueError (unpack_msg (length fields)))
  end.

Fixpoint plant_lines (data : gmap string (list string)) (lines : list string)
    : exn + gmap string (list string) :=
  match lines with
  | [] => inr data
  | line :: lines' =>
      match plant_line data line with
      | inl e => inl e
      | inr data' => plant_lines data' lines'
      end
  end.

Definition get_plant_associated_kos (plant_associated_f : string)
    : exn + gmap string (list string) :=
  plant_lines ∅ (tail (readlines plant_associated_f)).

(** The pairs (KO name, pathway) of a data line, in order. *)
Definition ko_pairs (line : string) : list (string * string) :=
  let fields := split TAB None (rstrip line) in
  (λ pathway, (hd "" fields, pathway)) <$> split BAR None (last_field fields).

(** Filing one pair. *)
Definition ko_pair_step (level : nat) (data : gmap string (list string))
    (p : string * string) : gmap string (list string) :=
  ko_file level p.1 data p.2.

(** The KO names filed under a key, read off the pairs: the reference
    against which the dictionary built by the loop is compared. *)
Definition ko_names_for (level : nat) (key : string) (pairs : list (string * string))
    : list string :=
  (filter (λ p, ko_key level p.2 = key) pairs).*1.

(** The number of occurrences of a character. *)
Definition count (c : ascii) (s : string) : nat :=
  length (filter (λ x, x = c) (chars s)).

(** A record can be written as one line and read back: no tab or newline in
    the lineage, no tab, newline or semicolon in a KO, and the KOs are not
    the single empty name (written like no KO at all). *)
Definition plant_record_ok (record : string * list string) : Prop :=
  (TAB ∉ chars record.1) ∧ (NL ∉ chars record.1)
  ∧ Forall (λ ko, (TAB ∉ chars ko) ∧ (NL ∉ chars ko) ∧ (SEMI ∉ chars ko)) record.2
  ∧ record.2 ≠ [""].

(** A record whose line also goes through a text file as it is: no carriage
    return in the lineage or in a KO. *)
Definition plant_record_portable (record : string * list string) : Prop :=
  plant_record_ok record
  ∧ (TextFile.CR ∉ chars record.1)
  ∧ Forall (λ ko, TextFile.CR ∉ chars ko) record.2.

(** A line of the plant database for a lineage and its KOs. *)
Definition plant_row (record : string * list string) : string :=
  record.1 +:+ String TAB (join SEMI record.2) +:+ String NL "".

Definition plant_text (header : string) (records : list (string * list string)) : string :=
  header +:+ String NL (String.concat "" (plant_row <$> records)).

End Picrust.

(** ** Entries as [__iter__] makes them *)

(** A stored value is what [add_trait] can have stored: a float, or a text
    that [float] rejects. *)
Definition value_ok `{Builtins} (v : value) : Prop :=
  match v with
  | Numeric _ => True
  | Text s => float s = None
  end.

(** The entry a row stands for: the name, and the i-th value, converted,
    under the i-th trait name. *)
Definition row_entry `{Builtins} (traits : list string) (name : string)
    (vals : list string) : TraitTableEntry.t :=
  {| TraitTableEntry.name := name;
     TraitTableEntry.traits :=
       list_to_map (zip traits (TraitTableEntry.convert_value <$> vals)) |}.

(** The entry of a data line that has a tab. *)
Definition line_entry `{Builtins} (traits : list string) (line : string)
    : TraitTableEntry.t :=
  match Str.split Str.TAB (Some 1) (Str.rstrip line) with
  | [name; trait_values] => row_entry traits name (Str.split Str.TAB None trait_values)
  | _ => TraitTableEntry.__init__ ""
  end.

(** A data line with a name, a tab and at most as many values as there are
    trait names. *)
Definition line_ok (traits : list string) (line : string) : Prop :=
  ∃ name trait_values,
    Str.split Str.TAB (Some 1) (Str.rstrip line) = [name; trait_values]
    ∧ length (Str.split Str.TAB None trait_values) ≤ length traits.

(** What holds of every entry [__iter__] yields for a header [traits]. *)
Definition entry_ok `{Builtins} (traits : list string) (e : TraitTableEntry.t) : Prop :=
  (Str.TAB ∉ Str.chars (TraitTableEntry.name e))
  ∧ ∀ trait v, TraitTableEntry.traits e !! trait = Some v →
      trait ∈ traits ∧ value_ok v.

Definition frame_ok `{Builtins} (traits : list string) (fr : TraitTableManager.frame) : Prop :=
  (∀ name tv, TraitTableManager.locals fr = Some (name, tv) → Str.TAB ∉ Str.chars name)
  ∧ Forall (entry_ok traits) (yields (TraitTableManager.out fr)).

(** ** Orderings and keys *)

(** No character of the name is a decimal digit. *)
Definition digit_free (s : string) : Prop :=
  Forall (λ c, Str.digit c = None) (Str.chars s).

Definition is_chr (tok : TraitTableManager.token) : Prop :=
  match tok with
  | TraitTableManager.TChr _ => True
  | TraitTableManager.TInt _ => False
  end.

(** [c] does not come before [a]: the comparison [c < a] is made without
    error and is false. *)
Definition not_before (key : string → list TraitTableManager.token) (a c : string) : Prop :=
  TraitTableManager.key_lt (key c) (key a) = inr false.

(** ** Writing a table *)

(** [for entry in es: write_entry(entry, fh, traits)], as far as the sink
    goes. *)
Definition write_entries `{Builtins} (es : list TraitTableEntry.t) (fh : string)
    (traits : list string) : string :=
  foldl (λ fh entry, (TraitTableManager.write_entry entry fh traits).1) fh es.

(** A header line for an entry column and trait names. *)
Definition header_line (entry_header : string) (traits : list string) : string :=
  Str.join Str.TAB (entry_header :: traits) +:+ String Str.NL "".

(** An entry that a row under the trait names [traits] can carry: its traits
    are those names, its name and the written values have no tab and no
    newline, the last written value ends in a character other than white
    space, and each value is read back from its written form as itself. *)
Definition writable `{Builtins} (traits : list string) (e : TraitTableEntry.t) : Prop :=
  clean (TraitTableEntry.name e) = true
  ∧ (∀ trait, trait ∈ traits ↔ is_Some (TraitTableEntry.traits e !! trait))
  ∧ (∀ trait v, TraitTableEntry.traits e !! trait = Some v →
       clean (TraitTableEntry.str_value v) = true
       ∧ TraitTableEntry.convert_value (TraitTableEntry.str_value v) = v)
  ∧ (∀ trait v, last traits = Some trait → TraitTableEntry.traits e !! trait = Some v →
       Str.ends_solid (TraitTableEntry.str_value v) = true).

(** ** class PicrustExecuter

    The methods that submit a job work on the operating system; what they
    use of it is an interface: the current directory, [os.path.abspath],
    [os.mkdir] (which may raise), the program [which] behind
    [subprocess.check_output] (which raises when the program is not found;
    the text is what [str.format] renders of the stripped output) and
    [subprocess.call] (which may raise).  The directories that exist, the
    class attribute [job_id] and the commands handed to [subprocess.call] are
    the state.  [wait_for_job] polls in real time and is left out. *)

Module PicrustExecuter.

Class Os : Type := {
  getcwd : string;
  abspath : string → string;
  (** [os.mkdir(path)] where the directories [dirs] exist: the exception
      raised, if any *)
  mkdir : gset string → string → option exn;
  (** [subprocess.check_output(["which", name]).strip()], as formatted *)
  which : string → exn + string;
  (** [subprocess.call(argv)]: the exception raised, if any *)
  call : list string → option exn;
}.

Record world : Type := {
  job_id : N;
  dirs : gset string;
  calls : list (list string);
}.

Section WithOs.
Context `{OS : Os}.

(** [str(n)] for a natural number *)
Definition str_int (n : N) : string := NilEmpty.string_of_uint (N.to_uint n).

(** The first statements of both methods: the base directory, made if it is
    not there. *)
Definition base_path (base_dir : option string) : string :=
  match base_dir with
  | None => getcwd +:+ "/" +:+ "picrust_project"
  | Some d => abspath d
  end.

Definition ensure_dir (base_dir : string) : state_exn world () :=
  w ← get;
  if decide (base_dir ∈ dirs w) then mret ()
  else
    match mkdir (dirs w) base_dir with
    | Some e => raise e
    | None => put {| job_id := job_id w; dirs := {[base_dir]} ∪ dirs w; calls := calls w |}
    end.

Definition check_which (name : string) : state_exn world string :=
  λ w, (which name, w).

Definition _get_format_command (trait_tab tree out : string) : state_exn world string :=
  exe ← check_which "format_tree_and_trait_table.py";
  mret ("python " +:+ exe +:+ " -t " +:+ tree +:+ " -i " +:+ trait_tab +:+ " -o " +:+ out).

Definition _get_asr_command (trait_table tree out : string) : state_exn world string :=
  exe ← check_which "ancestral_state_reconstruction.py";
  mret ("python " +:+ exe +:+ " -i " +:+ trait_table +:+ " -t " +:+ tree +:+ " -o " +:+ out).

Definition _get_predict_traits_command (trait_table asr_table tree out : string)
    : state_exn world string :=
  exe ← check_which "predict_traits.py";
  mret ("python " +:+ exe +:+ " -i " +:+ trait_table +:+ " -t " +:+ tree
        +:+ " -r " +:+ asr_table +:+ " -o " +:+ out +:+ " -a").

Definition _get_normalize_command (otu_table copy_numbers out : string)
    : state_exn world string :=
  exe ← check_which "normalize_by_copy_number.py";
  mret ("python " +:+ exe +:+ " -i " +:+ otu_table +:+ " -c " +:+ copy_numbers
        +:+ " -o " +:+ out).

Definition _get_predict_metagenome_command (otu_table trait_table out : string)
    : state_exn world string :=
  exe ← check_which "predict_metagenomes.py";
  mret ("python " +:+ exe +:+ " -i " +:+ otu_table +:+ " -c " +:+ trait_table
        +:+ " -o " +:+ out +:+ " -f").

(** The [bsub] command line for a job. *)
Definition bsub_argv (base_dir job_name super_command : string) : list string :=
  ["bsub"; "-o"; base_dir +:+ "/auto_picrust.out";
   "-e"; base_dir +:+ "/auto_picrust.err"; "-J"; job_name; super_command].

(** [subprocess.call(argv)]: the call is made (and recorded) and may raise. *)
Definition subprocess_call (argv : list string) : state_exn world () :=
  w ← get;
  put {| job_id := job_id w; dirs := dirs w; calls := calls w ++ [argv] |} ;;
  match call argv with
  | Some e => raise e
  | None => mret ()
  end.

Definition job_name_of (id : N) : string := "picrust_cmd" +:+ str_int id.

Definition type_msg : string := "type must be one of 'trait', 'marker'".

Definition predict_traits_wf (tree trait_table type : string) (base_dir : option string)
    : state_exn world (string * string) :=
  let base_dir := base_path base_dir in
  ensure_dir base_dir ;;
  '(format_dir, predict_out) ←
    (if decide (type = "trait") then
       mret (base_dir +:+ "/" +:+ "format_trait", base_dir +:+ "/" +:+ "predicted_traits.tab")
     else if decide (type = "marker") then
       mret (base_dir +:+ "/" +:+ "format_marker", base_dir +:+ "/" +:+ "predicted_markers.tab")
     else raise (ValueError type_msg));
  format_cmd ← _get_format_command trait_table tree format_dir;
  let fmt_table := format_dir +:+ "/" +:+ "trait_table.tab" in
  let fmt_tree := format_dir +:+ "/" +:+ "reference_tree.newick" in
  let prun_tree := format_dir +:+ "/" +:+ "pruned_tree.newick" in
  let asr_out := format_dir +:+ "/" +:+ "asr.tab" in
  reconstruct_cmd ← _get_asr_command fmt_table prun_tree asr_out;
  predict_cmd ← _get_predict_traits_command fmt_table asr_out fmt_tree predict_out;
  let super_command := format_cmd +:+ "; " +:+ reconstruct_cmd +:+ "; " +:+ predict_cmd in
  w ← get;
  let job_name := job_name_of (job_id w) in
  subprocess_call (bsub_argv base_dir job_name super_command) ;;
  w ← get;
  put {| job_id := job_id w + 1; dirs := dirs w; calls := calls w |} ;;
  mret (job_name, predict_out).

(** [predict_metagenome] has no [classmethod] decorator: its first parameter,
    called [cls], is the instance.  Reading [cls.job_id] gives the attribute
    of the instance when it has one and the class attribute otherwise;
    [cls.job_id += 1] sets the attribute of the instance.  The state is the
    world and the attribute of the instance, if set. *)
Definition predict_metagenome (otu_table copy_numbers trait_table : string)
    (base_dir : option string) : state_exn (world * option N) (string * string) :=
  let on_world {A} (m : state_exn world A) : state_exn (world * option N) A :=
    λ s, let '(r, w') := m s.1 in (r, (w', s.2)) in
  let base_dir := base_path base_dir in
  on_world (ensure_dir base_dir) ;;
  let norm_out := base_dir +:+ "/" +:+ "normalized_OTU_table.biom" in
  norm_cmd ← on_world (_get_normalize_command otu_table copy_numbers norm_out);
  let predict_out := base_dir +:+ "/" +:+ "predicted_metagenome.tab" in
  predict_cmd ← on_world (_get_predict_metagenome_command norm_out trait_table predict_out);
  let super_command := norm_cmd +:+ "; " +:+ predict_cmd in
  s ← get;
  let id := default (job_id s.1) s.2 in
  let job_name := job_name_of id in
  on_world (subprocess_call (bsub_argv base_dir job_name super_command)) ;;
  s ← get;
  put (s.1, Some (default (job_id s.1) s.2 + 1)%N) ;;
  mret (job_name, predict_out).

End WithOs.

(** An operating system where nothing fails, to run the methods. *)
Definition plain_os : Os :=
  {| getcwd := "/home/user";
     abspath := λ d, d;
     mkdir := λ _ _, None;
     which := λ name, inr ("/usr/bin/" +:+ name);
     call := λ _, None |}.

End PicrustExecuter.

(** ** Samples for the further properties *)

Definition ko_sample : string :=
  table_text [["ko"; "desc"; "pathways"]; ["K1"; "d1"; "A;B;C|A;D;E"]; ["K2"; "A;B"]].

Definition plant_sample : list (string * list string) :=
  [("L1", ["K1"; "K2"]); ("L2", [])].

(** A table whose second row has one value more than the header has names. *)
Definition long_row_table : string :=
  table_text [["#OTU"; "t1"]; ["w"; "0"]; ["x"; "1"; "2"]; ["y"; "3"]].

Definition world0 : PicrustExecuter.world :=
  {| PicrustExecuter.job_id := 0; PicrustExecuter.dirs := ∅; PicrustExecuter.calls := [] |}.

(** * Properties *)

(** ** Strings *)

Section StrFacts.
Import Str.

Lemma split_nonempty sep m s : split sep m s ≠ [].
Proof.
  revert m; induction s as [|c s IH]; intros m; simpl; [done|].
  case_decide.
  - by destruct m as [[|n]|].
  - specialize (IH m). by destruct (split sep m s).
Qed.

Lemma readlines_no_empty_line s : EmptyString ∉ readlines s.
Proof.
  induction s as [|c s IH]; simpl; [by intros ?%elem_of_nil|].
  case_decide.
  - intros [?|?]%elem_of_cons; [done|by apply IH].
  - destruct (readlines s) as [|l ls]; simpl.
    + by intros [?|?%elem_of_nil]%elem_of_cons.
    + intros [?|?]%elem_of_cons; [done|]. apply IH. by right.
Qed.

Lemma chars_app s1 s2 : chars (s1 +:+ s2) = chars s1 ++ chars s2.
Proof. induction s1 as [|c s1 IH]; simpl; [done|]. by rewrite IH. Qed.

Lemma replace_chars old s :
  chars (replace old "" s) = filter (λ c, c ≠ old) (chars s).
Proof.
  induction s as [|c s IH]; simpl; [done|].
  case_decide; subst.
  - rewrite filter_cons_False; [done|]. by intros ?.
  - rewrite filter_cons_True; [|done]. simpl. by rewrite IH.
Qed.

End StrFacts.

(** ** [TraitTableEntry.add_trait] *)

Section EntryFacts.
Context `{PD : Pandas}.
Import TraitTableEntry.

Lemma add_trait_present (self : t) trait raw :
  is_Some (traits self !! trait) →
  add_trait trait raw self = (inl (ValueError (duplicate_msg self trait)), self).
Proof. intros Hin. unfold add_trait, mbind, state_exn_bind, get. simpl. by rewrite decide_True. Qed.

Lemma add_trait_fresh (self : t) trait raw :
  traits self !! trait = None →
  add_trait trait raw self =
    (inr (), {| name := name self;
                traits := <[trait := convert_value raw]> (traits self) |}).
Proof.
  intros Hnone. unfold add_trait, mbind, state_exn_bind, get. simpl.
  rewrite decide_False; [done|]. rewrite Hnone. by intros [? ?].
Qed.

(** C6: on an entry that already has the trait, [add_trait] raises the
    duplicate error whatever the raw value is; on an entry that does not have
    it yet the call succeeds and stores the float when the raw text parses as
    one, the raw text unchanged otherwise, leaving the name and the other
    traits as they were, and a second call for the same trait then raises the
    duplicate error, be the new raw value equal to the first or not. *)
Theorem add_trait_stores_once (held fresh : t) (trait raw raw' : string) :
  is_Some (traits held !! trait) →
  traits fresh !! trait = None →
  add_trait trait raw held = (inl (ValueError (duplicate_msg held trait)), held)
  ∧ ∃ fresh',
      add_trait trait raw fresh = (inr (), fresh')
      ∧ name fresh' = name fresh
      ∧ traits fresh' !! trait =
          Some (match float raw with Some x => Numeric x | None => Text raw end)
      ∧ (∀ other, other ≠ trait → traits fresh' !! other = traits fresh !! other)
      ∧ add_trait trait raw' fresh' =
          (inl (ValueError (duplicate_msg fresh' trait)), fresh').
Proof.
  intros Hheld Hfresh. split; [by apply add_trait_present|].
  eexists. split; [by apply add_trait_fresh|]. simpl.
  split; [done|]. split; [by rewrite lookup_insert_eq|].
  split; [by intros other Hne; rewrite lookup_insert_ne|].
  rewrite add_trait_present; [done|]. simpl. rewrite lookup_insert_eq. by eexists.
Qed.

(** C10: when [add_trait] raises, the entry is exactly what it was before the
    call; the exception is the duplicate error and the trait was present. *)
Theorem add_trait_failure_atomic (self self' : t) (trait raw : string) (e : exn) :
  add_trait trait raw self = (inl e, self') →
  self' = self
  ∧ e = ValueError (duplicate_msg self trait)
  ∧ is_Some (traits self !! trait).
Proof.
  intros Hrun. destruct (traits self !! trait) as [v|] eqn:Hl.
  - rewrite add_trait_present in Hrun; [|by rewrite Hl; eexists].
    inversion Hrun; subst. split; [done|]. split; [done|]. by eexists.
  - rewrite add_trait_fresh in Hrun; [|done]. discriminate.
Qed.

(** ** [TraitTableEntry.correlation] *)

Lemma keys_spec (self : t) trait : trait ∈ keys self ↔ is_Some (traits self !! trait).
Proof.
  unfold keys. rewrite list_elem_of_fmap. split.
  - intros [[k v] [-> Hin%elem_of_map_to_list]]. by eexists.
  - intros [v Hv]. exists (trait, v). split; [done|]. by apply elem_of_map_to_list.
Qed.

Lemma shared_fold_lookup (self other : t) l pd trait :
  foldl (shared_step self other) pd l !! trait =
    match (if decide (trait ∈ l) then shared_pair self other trait else None) with
    | Some p => Some p
    | None => pd !! trait
    end.
Proof.
  revert pd; induction l as [|x l IH]; intros pd; cbn [foldl].
  - by rewrite decide_False by apply not_elem_of_nil.
  - rewrite IH. destruct (decide (trait ∈ l)) as [Hl|Hl].
    + rewrite decide_True by (by right).
      destruct (shared_pair self other trait) eqn:Hp; [done|].
      unfold shared_step. destruct (decide (x = trait)) as [->|Hne].
      * unfold shared_pair in Hp.
        destruct (traits self !! trait); simpl in Hp; [|done].
        destruct (traits other !! trait); simpl in Hp; [done|done].
      * destruct (traits self !! x); [|done].
        destruct (traits other !! x); [|done]. by rewrite lookup_insert_ne.
    + destruct (decide (x = trait)) as [->|Hne].
      * rewrite decide_True by (by left). unfold shared_step, shared_pair.
        destruct (traits self !! trait); simpl; [|done].
        destruct (traits other !! trait); simpl; [|done].
        by rewrite lookup_insert_eq.
      * rewrite decide_False by (by intros [?|?]%elem_of_cons).
        unfold shared_step.
        destruct (traits self !! x); [|done].
        destruct (traits other !! x); [|done]. by rewrite lookup_insert_ne.
Qed.

Lemma pandas_dict_lookup (self other : t) cand trait st ot :
  pandas_dict self other cand !! trait = Some (st, ot)
  ↔ trait ∈ candidates self cand
    ∧ traits self !! trait = Some st ∧ traits other !! trait = Some ot.
Proof.
  unfold pandas_dict. rewrite shared_fold_lookup, lookup_empty.
  unfold shared_pair. case_decide as Hin.
  - destruct (traits self !! trait) as [st'|], (traits other !! trait) as [ot'|];
      simpl; split; try (intros (_ & ? & ?)); try intros ?; simplify_eq; done.
  - split; [done|]. by intros (? & _).
Qed.

Lemma correlation_no_shared (self other : t) cand :
  (∀ trait, trait ∈ candidates self cand →
     is_Some (traits self !! trait) → traits other !! trait = None) →
  correlation self other cand = inl (ValueError no_shared_msg).
Proof.
  intros Hnone. unfold correlation.
  assert (pandas_dict self other cand = ∅) as ->.
  { apply map_eq. intros trait. rewrite lookup_empty.
    destruct (pandas_dict self other cand !! trait) as [[st ot]|] eqn:Hl; [|done].
    apply pandas_dict_lookup in Hl as (Hin & Hs & Ho).
    rewrite Hnone in Ho; [done|done|by eexists]. }
  by rewrite map_size_empty.
Qed.

Lemma correlation_shared (self other : t) cand trait :
  trait ∈ candidates self cand →
  is_Some (traits self !! trait) → is_Some (traits other !! trait) →
  correlation self other cand = spearman (pandas_dict self other cand).
Proof.
  intros Hin [st Hs] [ot Ho]. unfold correlation.
  rewrite decide_False; [done|].
  intros Hsz%map_size_empty_inv.
  assert (pandas_dict self other cand !! trait = Some (st, ot)) as Hl
    by by apply pandas_dict_lookup.
  by rewrite Hsz, lookup_empty in Hl.
Qed.

(** C7: without [traits] the candidates are this entry's own trait names; a
    trait is paired exactly when it is a candidate and both entries have a
    value for it; the call fails with the no-shared-traits error as soon as no
    candidate is held by both, in particular for two entries with disjoint
    traits, and only then. *)
Theorem correlation_default_candidates (self other : t) (cand : option (list string)) :
  candidates self None = keys self
  ∧ (∀ trait, trait ∈ candidates self None ↔ is_Some (traits self !! trait))
  ∧ (∀ trait st ot,
       pandas_dict self other cand !! trait = Some (st, ot)
       ↔ trait ∈ candidates self cand
         ∧ traits self !! trait = Some st ∧ traits other !! trait = Some ot)
  ∧ ((∀ trait, trait ∈ candidates self cand →
        is_Some (traits self !! trait) → traits other !! trait = None) →
     correlation self other cand = inl (ValueError no_shared_msg))
  ∧ (dom (traits self) ## dom (traits other) →
     correlation self other None = inl (ValueError no_shared_msg))
  ∧ (∀ trait, trait ∈ candidates self cand →
       is_Some (traits self !! trait) → is_Some (traits other !! trait) →
       correlation self other cand = spearman (pandas_dict self other cand)).
Proof.
  split; [done|]. split; [by intros trait; apply keys_spec|].
  split; [by intros; apply pandas_dict_lookup|].
  split; [by apply correlation_no_shared|].
  split; [|by apply correlation_shared].
  intros Hdisj. apply correlation_no_shared. intros trait _ Hs.
  destruct (traits other !! trait) eqn:Ho; [|done].
  exfalso. apply (Hdisj trait); apply elem_of_dom; [done|by eexists].
Qed.

End EntryFacts.

(** ** [TraitTableManager.__init__] *)

Section HeaderFacts.
Context `{PD : Pandas}.
Import Str TraitTableManager.

(** C9 (as amended): the entry header is the first tab-separated field of the
    stripped header line with every comment marker removed, leading or not,
    all other characters kept in order; the remaining fields are the trait
    names in file order. *)
Theorem init_header_drops_every_marker (trait_table_f : string) :
  let fields := split TAB None (rstrip (readline trait_table_f)) in
  (chars (entry_header (__init__ trait_table_f)) =
     filter (λ c, c ≠ HASH) (chars (hd "" fields)))
  ∧ (HASH ∉ chars (entry_header (__init__ trait_table_f)))
  ∧ traits (__init__ trait_table_f) = tail fields.
Proof.
  simpl. split; [apply replace_chars|]. split; [|done].
  rewrite replace_chars. intros [Hne _]%list_elem_of_filter. by apply Hne.
Qed.

End HeaderFacts.

(** ** [TraitTableManager.__iter__] *)

Section IterFacts.
Context `{PD : Pandas}.
Import Str TraitTableManager.

Lemma for_each_app {S A} (body : A → state_exn S ()) l1 l2 (s : S) :
  for_each body (l1 ++ l2) s =
    match for_each body l1 s with
    | (inl e, s') => (inl e, s')
    | (inr _, s') => for_each body l2 s'
    end.
Proof.
  revert s; induction l1 as [|x l1 IH]; intros s; simpl; [done|].
  unfold mbind, state_exn_bind. destruct (body x s) as [[e|[]] s']; [done|].
  apply IH.
Qed.

Lemma split_tabless sep m s : sep ∉ chars s → split sep m s = [s].
Proof.
  induction s as [|c s IH]; simpl; [done|]. intros Hnot.
  rewrite decide_False by (intros ->; apply Hnot; by left).
  rewrite IH; [done|]. intros ?. apply Hnot. by right.
Qed.

(** A line that splits in two assigns the locals and runs [add_trait] over
    the values. *)
Lemma iter_body_row traits line fr name tv :
  split TAB (Some 1) (rstrip line) = [name; tv] →
  iter_body traits line fr =
    match add_traits traits 0 (split TAB None tv) (TraitTableEntry.__init__ name) with
    | (inl e, _) => (inl e, {| locals := Some (name, tv); out := out fr |})
    | (inr _, tte) =>
        (inr (), {| locals := Some (name, tv); out := out fr ++ [Yielded tte] |})
    end.
Proof.
  intros Hsplit. unfold iter_body.
  rewrite decide_False by (by intros ->).
  rewrite Hsplit. unfold mbind, state_exn_bind, assign, get, put; simpl.
  by destruct (add_traits _ _ _ _) as [[e|[]] tte].
Qed.

(** A line without a tab is printed, and the body goes on with the locals
    of the previous row. *)
Lemma iter_body_tabless traits line fr :
  line ≠ "" → TAB ∉ chars (rstrip line) →
  iter_body traits line fr =
    let fr' := {| locals := locals fr; out := out fr ++ [Printed line] |} in
    match locals fr with
    | None => (inl (UnboundLocalError "name"), fr')
    | Some (name, tv) =>
        match add_traits traits 0 (split TAB None tv) (TraitTableEntry.__init__ name) with
        | (inl e, _) => (inl e, fr')
        | (inr _, tte) =>
            (inr (), {| locals := locals fr; out := out fr' ++ [Yielded tte] |})
        end
    end.
Proof.
  intros Hne Htab. unfold iter_body. rewrite decide_False by done.
  rewrite split_tabless by done.
  unfold mbind, state_exn_bind, emit, get, put, raise; simpl.
  destruct (locals fr) as [[name tv]|]; [|done].
  by destruct (add_traits _ _ _ _) as [[e|[]] tte].
Qed.

Lemma duplicate_msg_name (self self' : TraitTableEntry.t) trait :
  TraitTableEntry.name self' = TraitTableEntry.name self →
  TraitTableEntry.duplicate_msg self' trait = TraitTableEntry.duplicate_msg self trait.
Proof. unfold TraitTableEntry.duplicate_msg, TraitTableEntry.__str__. by intros ->. Qed.

(** When the header repeats a name and the row has a value for the second
    occurrence, [add_trait] raises the duplicate error for that row. *)
Lemma add_traits_repeated_name traits vals k (self : TraitTableEntry.t) i j trait :
  (∀ m, m < k → ∃ tm, traits !! m = Some tm
                       ∧ is_Some (TraitTableEntry.traits self !! tm)) →
  i < j → traits !! i = Some trait → traits !! j = Some trait →
  k ≤ j → j < k + length vals →
  ∃ trait' self',
    add_traits traits k vals self =
      (inl (ValueError (TraitTableEntry.duplicate_msg self trait')), self').
Proof.
  revert k self. induction vals as [|v vals IH]; intros k self Hinv Hij Hi Hj Hk Hlen;
    simpl in *; [lia|].
  destruct (traits !! k) as [tk|] eqn:Htk; last first.
  { apply lookup_ge_None in Htk. apply lookup_lt_Some in Hj. lia. }
  unfold mbind, state_exn_bind.
  destruct (TraitTableEntry.traits self !! tk) as [old|] eqn:Hold.
  - rewrite add_trait_present by (by rewrite Hold; eexists). eauto.
  - rewrite add_trait_fresh by done.
    assert (k ≠ j) as Hkj.
    { intros ->. destruct (Hinv i Hij) as (tm & Htm & Hin).
      simplify_eq. rewrite Hold in Hin. by destruct Hin. }
    set (self1 := {| TraitTableEntry.name := TraitTableEntry.name self;
                     TraitTableEntry.traits :=
                       <[tk := TraitTableEntry.convert_value v]>
                         (TraitTableEntry.traits self) |}).
    assert (∀ m, m < S k → ∃ tm, traits !! m = Some tm
              ∧ is_Some (TraitTableEntry.traits self1 !! tm)) as Hinv1.
    { intros m Hm. destruct (decide (m = k)) as [->|Hmk].
      - exists tk. split; [done|]. simpl. rewrite lookup_insert_eq. by eexists.
      - destruct (Hinv m) as (tm & Htm & [x Hx]); [lia|].
        exists tm. split; [done|]. simpl.
        destruct (decide (tk = tm)) as [->|Hne]; [by rewrite Hx in Hold|].
        rewrite lookup_insert_ne by done. by eexists. }
    destruct (IH (S k) self1 Hinv1 Hij Hi Hj) as (trait' & self' & Hrun); [lia..|].
    rewrite Hrun. by eexists _, _.
Qed.

(** C3 (the code on a blank line and on a first data line without a tab): the
    blank line between the rows of [x] and [y] is printed and the entry of
    [x] is yielded a second time for it; a first data line without a tab is
    printed and ends the scan with [UnboundLocalError]. *)
Theorem iter_blank_line_repeats_entry :
  __iter__ (__init__ blank_line_table) =
    {| events := [Yielded (entry1 "x" "t1" "1"); Printed (table_line []);
                  Yielded (entry1 "x" "t1" "1"); Yielded (entry1 "y" "t1" "2")];
       raised := None |}
  ∧ __iter__ (__init__ tabless_first_table) =
      {| events := [Printed (table_line ["x"])];
         raised := Some (UnboundLocalError "name") |}.
Proof. split; reflexivity. Qed.

(** C4 (as amended): when the header repeats a trait name and a row has a
    value for the second occurrence, [add_trait] raises the duplicate error
    for that row and the error ends the scan there: what the earlier lines
    produced stays, no entry is emitted for the row, and no later line is
    looked at. *)
Theorem iter_duplicate_trait_ends_scan
    (traits before after : list string) (line name tv trait : string)
    (fr0 fr1 : frame) (i j : nat) :
  iter_lines traits before fr0 = (inr (), fr1) →
  split TAB (Some 1) (rstrip line) = [name; tv] →
  i < j → traits !! i = Some trait → traits !! j = Some trait →
  j < length (split TAB None tv) →
  ∃ trait',
    finish (iter_lines traits (before ++ line :: after) fr0) =
      {| events := out fr1;
         raised := Some (ValueError
                     (TraitTableEntry.duplicate_msg (TraitTableEntry.__init__ name) trait')) |}.
Proof.
  intros Hbefore Hsplit Hij Hi Hj Hlen.
  destruct (add_traits_repeated_name traits (split TAB None tv) 0
              (TraitTableEntry.__init__ name) i j trait) as (trait' & self' & Hrun);
    [intros m Hm; lia|done..|lia|simpl; lia|].
  exists trait'. unfold iter_lines in *. rewrite for_each_app, Hbefore. simpl.
  unfold mbind, state_exn_bind. rewrite (iter_body_row _ _ _ name tv) by done.
  by rewrite Hrun.
Qed.

End IterFacts.

(** ** [TraitTableManager.get_subset] *)

Section SubsetFacts.
Context `{PD : Pandas}.
Import TraitTableManager.

Lemma yields_Yielded (e : TraitTableEntry.t) evs : yields (Yielded e :: evs) = e :: yields evs.
Proof. done. Qed.

Lemma yields_Printed line evs : yields (Printed line :: evs) = yields evs.
Proof. done. Qed.

Lemma yields_fmap_Yielded (es : list TraitTableEntry.t) : yields (Yielded <$> es) = es.
Proof.
  induction es as [|e es IH]; [done|]. rewrite fmap_cons, yields_Yielded. by rewrite IH.
Qed.

Lemma filter_none {A} (P : A → Prop) `{∀ x, Decision (P x)} (l : list A) :
  (∀ x, x ∈ l → ¬ P x) → filter P l = [].
Proof.
  induction l as [|x l IH]; intros Hall; [done|].
  rewrite filter_cons_False by (apply Hall; by left).
  apply IH. intros y Hy. apply Hall. by right.
Qed.

(** Pigeonhole: distinct names taken from a list as long as they are
    numerous exhaust it. *)
Lemma seen_all (seen subset_names : list string) :
  NoDup seen → seen ⊆ subset_names → length seen = length subset_names →
  subset_names ⊆ seen.
Proof.
  intros Hnd Hsub Hlen n Hn.
  assert (seen ≡ₚ subset_names) as Hperm.
  { apply submseteq_length_Permutation; [|lia]. by apply NoDup_submseteq. }
  by rewrite Hperm.
Qed.

(** The loop without [remove], started after the distinct names [seen] have
    been matched: it yields the entries of the source whose name is listed,
    and returns early only when every listed name has been matched. *)
Lemma subset_loop_keep (subset_names : list string) (src : list event) (seen : list string) :
  NoDup seen → seen ⊆ subset_names →
  NoDup (TraitTableEntry.name <$> yields src) →
  (∀ n, n ∈ seen → n ∉ TraitTableEntry.name <$> yields src) →
  ∀ o r, subset_loop subset_names false (length subset_names) (length seen) src = (o, r) →
  yields o = filter (λ e, TraitTableEntry.name e ∈ subset_names) (yields src)
  ∧ (is_Some r → ∀ n, n ∈ subset_names → n ∈ seen ++ (TraitTableEntry.name <$> yields o)).
Proof.
  revert seen. induction src as [|[line|entry] src IH]; intros seen Hnd Hsub Hsrc Hdisj o r Hrun.
  - simpl in Hrun. simplify_eq. split; [done|]. by intros [? ?].
  - simpl in Hrun.
    destruct (subset_loop _ _ _ _ src) as [o' r'] eqn:Hrec.
        injection Hrun as <- <-.
    rewrite !yields_Printed in *. by apply (IH seen).
  - cbn [subset_loop] in Hrun. rewrite yields_Yielded in Hsrc, Hdisj |- *.
    rewrite fmap_cons in Hsrc.
    apply NoDup_cons in Hsrc as [Hfresh Hsrc].
    case_bool_decide as Hfound; simpl in Hrun.
    + simplify_eq. split.
      * symmetry. apply filter_none. intros e He Hin.
        apply (seen_all seen subset_names) in Hin; [|done..].
        apply (Hdisj _ Hin). apply list_elem_of_fmap. eauto.
      * intros _ n Hn. rewrite app_nil_r. by apply (seen_all seen subset_names).
    + case_bool_decide as Hname; simpl in Hrun.
      * destruct (subset_loop _ _ _ _ src) as [o' r'] eqn:Hrec.
        injection Hrun as <- <-.
        destruct (IH (TraitTableEntry.name entry :: seen)) with (o := o') (r := r')
          as [Hy Hr]; [| | | |done|].
        { apply NoDup_cons. split; [|done]. intros Hin. apply (Hdisj _ Hin).
          rewrite fmap_cons. by left. }
        { intros n [->|Hn]%elem_of_cons; [done|by apply Hsub]. }
        { done. }
        { intros n [->|Hn]%elem_of_cons; [done|].
          intros Hin. apply (Hdisj _ Hn). rewrite fmap_cons. by right. }
        split.
        -- rewrite filter_cons_True by done. cbn [app]. rewrite yields_Yielded.
           by rewrite Hy.
        -- intros Hsome n Hn. specialize (Hr Hsome n Hn).
           cbn [app]. rewrite yields_Yielded.
           rewrite elem_of_app in Hr |- *. rewrite elem_of_cons in Hr.
           rewrite fmap_cons, elem_of_cons. tauto.
      * destruct (subset_loop _ _ _ _ src) as [o' r'] eqn:Hrec.
        injection Hrun as <- <-.
        destruct (IH seen) with (o := o') (r := r') as [Hy Hr]; [done..| |done|].
        { intros n Hn Hin. apply (Hdisj _ Hn). rewrite fmap_cons. by right. }
        split; [by rewrite filter_cons_False|done].
Qed.

Lemma subset_of_run_raised subset_names remove (src : run) :
  raised src = None → raised (subset_of_run subset_names remove src) = None.
Proof.
  intros Hnone. unfold subset_of_run.
  destruct (subset_loop _ _ _ _ _) as [o [rest|]]; simpl; done.
Qed.

(** C8 (the code without [remove], evaluated): on the table with the rows
    [a], [b], a blank line, [c], [d], [get_subset] with the names [b] and [d]
    yields [b] twice and returns when it takes [c], so [d] is never yielded:
    [__iter__] yields the entry of [b] again for the blank line, and the loop
    counts it as the second match.  On the same table without the blank line
    it yields [b] and [d]. *)
Theorem get_subset_blank_line_misses_listed :
  let b := entry1 "b" "t1" "2" in
  let c := entry1 "c" "t1" "3" in
  let d := entry1 "d" "t1" "4" in
  get_subset (__init__ abcd_blank_table) ["b"; "d"] false =
    {| events := [Yielded b; Printed (table_line []); Yielded b]; raised := None |}
  ∧ subset_loop ["b"; "d"] false 2 0 (events (__iter__ (__init__ abcd_blank_table))) =
      ([Yielded b; Printed (table_line []); Yielded b], Some [Yielded c; Yielded d])
  ∧ entries (get_subset (__init__ abcd_blank_table) ["b"; "d"] false) ≠ [b; d]
  ∧ get_subset (__init__ abcd_table) ["b"; "d"] false = run_of [b; d].
Proof.
  intros b c d.
  assert (entries (get_subset (__init__ abcd_blank_table) ["b"; "d"] false) = [b; b])
    as Hentries by reflexivity.
  split; [reflexivity|]. split; [reflexivity|]. split; [|reflexivity].
  rewrite Hentries. intros Heq.
  apply (f_equal (fmap TraitTableEntry.name)) in Heq. discriminate Heq.
Qed.

(** With [remove] the loop never executes [return]: the source is read to
    its end. *)
Lemma subset_loop_remove_no_return subset_names to_find found (src : list event) :
  (subset_loop subset_names true to_find found src).2 = None.
Proof.
  revert found. induction src as [|[line|entry] src IH]; intros found; [done| |].
  - cbn [subset_loop]. specialize (IH found).
    by destruct (subset_loop _ _ _ _ src).
  - cbn [subset_loop]. rewrite andb_false_r.
    destruct (bool_decide (TraitTableEntry.name entry ∈ subset_names)); cbn [negb].
    + specialize (IH found). by destruct (subset_loop _ _ _ _ src).
    + specialize (IH (S found)). by destruct (subset_loop _ _ _ _ src).
Qed.

(** With [remove] every entry whose name is not listed is yielded, in source
    order (other entries may come in between). *)
Lemma subset_loop_remove_keeps_unlisted subset_names to_find found (src : list event) :
  filter (λ e, TraitTableEntry.name e ∉ subset_names) (yields src)
  `sublist_of` yields (subset_loop subset_names true to_find found src).1.
Proof.
  revert found. induction src as [|[line|entry] src IH]; intros found; [done| |].
  - cbn [subset_loop]. specialize (IH found). rewrite yields_Printed.
    destruct (subset_loop _ _ _ _ src) as [o r]. cbn [fst] in *.
    by rewrite yields_Printed.
  - cbn [subset_loop]. rewrite andb_false_r, yields_Yielded.
    case_bool_decide as Hname; cbn [negb].
    + rewrite filter_cons_False by (by intros Hn; apply Hn).
      specialize (IH found). destruct (subset_loop _ _ _ _ src) as [o r].
      cbn [fst] in *. case_bool_decide; cbn [app]; [|done].
      rewrite yields_Yielded. by apply sublist_cons.
    + rewrite filter_cons_True by done.
      specialize (IH (S found)). destruct (subset_loop _ _ _ _ src) as [o r].
      cbn [fst] in *. case_bool_decide; cbn [app]; rewrite !yields_Yielded.
      * apply sublist_cons. by apply sublist_skip.
      * by apply sublist_skip.
Qed.

(** C1 (the code with [remove], evaluated): on the entries named [a], [b],
    [c], [d], whatever their traits, [get_subset] with the names [b] and [d]
    and [remove] yields [a], [c] and also [d]: after two entries have been let
    through the counter equals the number of listed names and the next entry
    is yielded unseen.  The same holds on the table read from a file.  The
    parts of the claim that do hold are general: with [remove] the source is
    always read to its end, and every entry that is not listed is yielded. *)
Theorem get_subset_remove_lets_listed_through (ta tb tc td : gmap string value)
    (subset_names : list string) (src : run) :
  let e n t := {| TraitTableEntry.name := n; TraitTableEntry.traits := t |} in
  subset_of_run ["b"; "d"] true (run_of [e "a" ta; e "b" tb; e "c" tc; e "d" td]) =
    run_of [e "a" ta; e "c" tc; e "d" td]
  ∧ get_subset (__init__ abcd_table) ["b"; "d"] true =
      run_of [entry1 "a" "t1" "1"; entry1 "c" "t1" "3"; entry1 "d" "t1" "4"]
  ∧ (subset_loop subset_names true (length subset_names) 0 (events src)).2 = None
  ∧ filter (λ e, TraitTableEntry.name e ∉ subset_names) (entries src)
    `sublist_of` entries (subset_of_run subset_names true src).
Proof.
  split; [reflexivity|]. split; [reflexivity|].
  split; [apply subset_loop_remove_no_return|].
  unfold entries, subset_of_run.
  pose proof (subset_loop_remove_keeps_unlisted subset_names (length subset_names) 0
                (events src)) as Hsub.
  by destruct (subset_loop _ _ _ _ (events src)) as [o r].
Qed.

End SubsetFacts.

(** ** [TraitTableManager.get_ordered_traits] *)

Section OrderFacts.
Import TraitTableManager.

(** With [metadata_last] every name that starts with [metadata] has the key
    of the constant [~~~metadata]: the rest of the name is not in the key. *)
Lemma nat_sort_metadata_constant (entry : string) :
  Str.startswith "metadata" entry = true →
  nat_sort true entry = convert <$> Str.chars "~~~metadata".
Proof. intros Hmeta. unfold nat_sort. by rewrite Hmeta. Qed.

(** C2 (the code on the example of the claim): the key is taken character
    by character, so [trait10] sorts before [trait2] (1 < 2 at the first
    digit); every name that starts with [metadata] gets the same key, so
    these names keep their input order, [metadata_b] before [metadata_a].
    All the keys of the example compare without [TypeError], so the result
    does not depend on which comparisons the sort makes. *)
Theorem get_ordered_traits_by_character (trait_table_f entry_header : string) :
  get_ordered_traits
    {| trait_table_f := trait_table_f; entry_header := entry_header;
       traits := ordered_example |} true
  = inr ["trait1"; "trait10"; "trait2"; "metadata_b"; "metadata_a"]
  ∧ key_lt (nat_sort true "trait10") (nat_sort true "trait2") = inr true
  ∧ nat_sort true "metadata_a" = nat_sort true "metadata_b"
  ∧ forallb (λ a, forallb (comparable a) ordered_example) ordered_example = true.
Proof. repeat split; reflexivity. Qed.

End OrderFacts.

(** ** [TraitTableManager.write_entry] and reading back *)

Section RoundTripFacts.
Context `{PD : Pandas}.
Import Str TraitTableManager.

Lemma app_String c (s1 s2 : string) : String c s1 +:+ s2 = String c (s1 +:+ s2).
Proof. done. Qed.

Lemma readlines_one_line s :
  NL ∉ chars s → readlines (s +:+ String NL "") = [s +:+ String NL ""].
Proof.
  induction s as [|c s IH]; intros Hnl; [done|].
  rewrite app_String. cbn [readlines].
  rewrite decide_False by (intros ->; apply Hnl; by left).
  rewrite IH; [done|]. intros ?. apply Hnl. by right.
Qed.

Lemma rstrip_app_space c s : isspace c = true → rstrip (s +:+ String c "") = rstrip s.
Proof.
  intros Hc. induction s as [|a s IH]; simpl; [by rewrite Hc|]. by rewrite IH.
Qed.

Lemma ends_solid_cons c s : s ≠ "" → ends_solid (String c s) = ends_solid s.
Proof. destruct s as [|a s]; [done|]. intros _. unfold ends_solid. simpl. done. Qed.

Lemma ends_solid_nonempty s : ends_solid s = true → s ≠ "".
Proof. by destruct s. Qed.

Lemma rstrip_cons c s :
  rstrip (String c s) =
    match rstrip s with
    | EmptyString => if isspace c then EmptyString else String c EmptyString
    | r => String c r
    end.
Proof. done. Qed.

Lemma rstrip_solid s : ends_solid s = true → rstrip s = s.
Proof.
  induction s as [|c s IH]; [done|]. intros Hsolid.
  destruct s as [|a s].
  - unfold ends_solid in Hsolid. simpl in *. by destruct (isspace c).
  - rewrite ends_solid_cons in Hsolid by done.
    rewrite rstrip_cons, IH by done. done.
Qed.

Lemma ends_solid_app s1 s2 : ends_solid s2 = true → ends_solid (s1 +:+ s2) = true.
Proof.
  intros Hs2. induction s1 as [|c s1 IH]; [done|]. rewrite app_String.
  rewrite ends_solid_cons; [done|].
  destruct s1; [by apply ends_solid_nonempty|done].
Qed.

Lemma split_first n rest m :
  TAB ∉ chars n →
  split TAB (Some (S m)) (n +:+ String TAB rest) = n :: split TAB (Some m) rest.
Proof.
  induction n as [|c n IH]; intros Htab.
  - done.
  - rewrite app_String. cbn [split].
    rewrite decide_False by (intros ->; apply Htab; by left).
    rewrite IH; [done|]. intros ?. apply Htab. by right.
Qed.

Lemma split_zero s : split TAB (Some 0) s = [s].
Proof.
  induction s as [|c s IH]; [done|]. cbn [split].
  case_decide; [done|]. by rewrite IH.
Qed.

Lemma split_all_first f rest :
  TAB ∉ chars f → split TAB None (f +:+ String TAB rest) = f :: split TAB None rest.
Proof.
  induction f as [|c f IH]; intros Htab.
  - done.
  - rewrite app_String. cbn [split].
    rewrite decide_False by (intros ->; apply Htab; by left).
    rewrite IH; [done|]. intros ?. apply Htab. by right.
Qed.

Lemma split_join fields :
  fields ≠ [] → Forall (λ f, TAB ∉ chars f) fields →
  split TAB None (join TAB fields) = fields.
Proof.
  induction fields as [|f fields IH]; [done|]. intros _ Hall.
  apply Forall_cons in Hall as [Hf Hall].
  destruct fields as [|g fields].
  - simpl. by apply split_tabless.
  - cbn [join]. rewrite split_all_first by done. f_equal. by apply IH.
Qed.

Lemma clean_spec s :
  clean s = true ↔ (TAB ∉ chars s) ∧ (NL ∉ chars s) ∧ (TextFile.CR ∉ chars s).
Proof.
  unfold clean. induction (chars s) as [|c l IH]; simpl.
  - split; [|done]. intros _. repeat split; apply not_elem_of_nil.
  - rewrite andb_true_iff, IH, !andb_true_iff, !negb_true_iff, !bool_decide_eq_false.
    rewrite !not_elem_of_cons. intuition congruence.
Qed.

(** Text mode leaves a text without carriage returns as it is: the line
    separator written for a line feed is read as a line feed. *)
Lemma universal_newlines_id s :
  TextFile.CR ∉ chars s → TextFile.universal_newlines s = s.
Proof.
  induction s as [|c s IH]; intros Hcr; [done|].
  cbn [TextFile.universal_newlines].
  rewrite decide_False by (intros ->; apply Hcr; by left).
  rewrite IH; [done|]. intros ?. apply Hcr. by right.
Qed.

Lemma reread_id crlf s : TextFile.CR ∉ chars s → TextFile.reread crlf s = s.
Proof.
  unfold TextFile.reread, TextFile.contents. intros Hcr.
  induction s as [|c s IH]; [done|].
  assert (c ≠ TextFile.CR) as Hc by (intros ->; apply Hcr; by left).
  assert (TextFile.CR ∉ chars s) as Hs by (intros ?; apply Hcr; by right).
  specialize (IH Hs). cbn [replace]. destruct (decide (c = NL)) as [->|Hnl].
  - destruct crlf.
    + change (TextFile.universal_newlines
                (String TextFile.CR (String NL (replace NL (TextFile.linesep true) s)))
              = String NL s).
      cbn [TextFile.universal_newlines].
      rewrite decide_True by done. rewrite decide_True by done. by rewrite IH.
    + change (TextFile.universal_newlines
                (String NL (replace NL (TextFile.linesep false) s)) = String NL s).
      cbn [TextFile.universal_newlines].
      rewrite decide_False by done. by rewrite IH.
  - cbn [TextFile.universal_newlines]. rewrite decide_False by done. by rewrite IH.
Qed.

Lemma chars_join_no c fields :
  c ≠ TAB → Forall (λ f, c ∉ chars f) fields → c ∉ chars (join TAB fields).
Proof.
  intros Hc. induction fields as [|f fields IH]; intros Hall; [apply not_elem_of_nil|].
  apply Forall_cons in Hall as [Hf Hall].
  destruct fields as [|g fields]; [done|].
  cbn [join]. rewrite chars_app. cbn [chars].
  rewrite elem_of_app, elem_of_cons. intros [?|[?|?]]; [done|done|by apply IH].
Qed.

Lemma ends_solid_join fields :
  (∀ f, last fields = Some f → ends_solid f = true) → fields ≠ [] →
  ends_solid (join TAB fields) = true.
Proof.
  induction fields as [|f fields IH]; [done|]. intros Hlast _.
  destruct fields as [|g fields]; [by apply Hlast|].
  cbn [join]. apply ends_solid_app. rewrite ends_solid_cons.
  - by apply IH.
  - apply ends_solid_nonempty. by apply IH.
Qed.

(** The loop of [add_trait] over one value per trait name, the names being
    distinct and new to the entry: every value is stored under its name. *)
Lemma add_traits_all (raw : string → string) pre post (self : TraitTableEntry.t) :
  NoDup post →
  (∀ trait, trait ∈ post → TraitTableEntry.traits self !! trait = None) →
  ∃ self',
    add_traits (pre ++ post) (length pre) (raw <$> post) self = (inr (), self')
    ∧ TraitTableEntry.name self' = TraitTableEntry.name self
    ∧ ∀ trait,
        TraitTableEntry.traits self' !! trait =
          if decide (trait ∈ post)
          then Some (TraitTableEntry.convert_value (raw trait))
          else TraitTableEntry.traits self !! trait.
Proof.
  revert pre self. induction post as [|p post IH]; intros pre self Hnd Hfresh.
  - exists self. split; [done|]. split; [done|]. intros trait.
    by rewrite decide_False by apply not_elem_of_nil.
  - apply NoDup_cons in Hnd as [Hp Hnd]. cbn [fmap list_fmap add_traits].
    rewrite lookup_app_r by lia. rewrite Nat.sub_diag. cbn [lookup list_lookup].
    unfold mbind, state_exn_bind.
    rewrite add_trait_fresh by (apply Hfresh; by left).
    set (self1 := {| TraitTableEntry.name := _; TraitTableEntry.traits := _ |}).
    destruct (IH (pre ++ [p]) self1) as (self' & Hrun & Hname & Hlook); [done| |].
    { intros trait Hin. unfold self1. simpl.
      rewrite lookup_insert_ne by (by intros ->). apply Hfresh. by right. }
    rewrite <- app_assoc, length_app in Hrun. simpl in Hrun.
    rewrite Nat.add_1_r in Hrun.
    exists self'. split; [done|]. split; [done|]. intros trait. rewrite Hlook.
    destruct (decide (trait ∈ post)) as [Hin|Hin].
    + by rewrite decide_True by (by right).
    + unfold self1. simpl. destruct (decide (trait = p)) as [->|Hne].
      * rewrite decide_True by (by left). by rewrite lookup_insert_eq.
      * rewrite decide_False by (by intros [?|?]%elem_of_cons).
        by rewrite lookup_insert_ne.
Qed.

Lemma field_text (e : TraitTableEntry.t) trait :
  (field e trait).1 =
    match TraitTableEntry.traits e !! trait with
    | Some v => TraitTableEntry.str_value v
    | None => "NA"
    end.
Proof. unfold field. by destruct (TraitTableEntry.traits e !! trait). Qed.

(** C5 (as amended): take an entry and a non-empty order of distinct trait
    names; let the name and the written fields hold no tab, no line feed and
    no carriage return, the last written field end in a character other than
    white space, every stored value be read back from its written form as
    itself, and [NA] not parse as a float.  Then, whatever the line separator
    of the platform, reading back in text mode the row written by
    [write_entry] yields exactly one entry, with the same name, the same
    value for every trait of the order the entry has, the text [NA] for every
    trait of the order it lacks, and no other trait. *)
Theorem write_entry_round_trip (crlf : bool) (e : TraitTableEntry.t) (order : list string) :
  order ≠ [] →
  NoDup order →
  clean (TraitTableEntry.name e) = true →
  (∀ trait, trait ∈ order → clean (field e trait).1 = true) →
  (∀ trait, last order = Some trait → ends_solid (field e trait).1 = true) →
  (∀ trait v, trait ∈ order → TraitTableEntry.traits e !! trait = Some v →
     TraitTableEntry.convert_value (TraitTableEntry.str_value v) = v) →
  float "NA" = None →
  ∃ e',
    reparse_rows crlf order (write_entry e "" order).1 =
      {| events := [Yielded e']; raised := None |}
    ∧ TraitTableEntry.name e' = TraitTableEntry.name e
    ∧ (∀ trait, trait ∈ order →
         TraitTableEntry.traits e' !! trait =
           Some (default (Text "NA") (TraitTableEntry.traits e !! trait)))
    ∧ (∀ trait, trait ∉ order → TraitTableEntry.traits e' !! trait = None).
Proof.
  intros Hne Hnd Hname Hclean Hlast Hback Hna.
  set (raw := λ trait, (field e trait).1).
  set (fields := raw <$> order).
  assert (fields ≠ []) as Hfields by (unfold fields; by destruct order).
  assert (Forall (λ f, TAB ∉ chars f) fields) as Htabs.
  { apply Forall_fmap, Forall_forall. intros trait Hin. simpl.
    by apply clean_spec, Hclean. }
  assert (Forall (λ f, NL ∉ chars f) fields) as Hnls.
  { apply Forall_fmap, Forall_forall. intros trait Hin. simpl.
    by apply clean_spec, Hclean. }
  assert (Forall (λ f, TextFile.CR ∉ chars f) fields) as Hcrs.
  { apply Forall_fmap, Forall_forall. intros trait Hin. simpl.
    by apply clean_spec, Hclean. }
  apply clean_spec in Hname as (Hname_tab & Hname_nl & Hname_cr).
  set (content := TraitTableEntry.name e +:+ String TAB (join TAB fields)).
  assert ((write_entry e "" order).1 = content +:+ String NL "") as ->.
  { unfold write_entry, row, content. cbn [fst]. fold raw. fold fields.
    cbn [join]. destruct fields; [done|]. done. }
  assert (NL ∉ chars content) as Hnl.
  { unfold content. rewrite chars_app. cbn [chars].
    rewrite elem_of_app, elem_of_cons. intros [?|[?|?]]; [done|done|].
    by apply (chars_join_no NL fields). }
  assert (TextFile.CR ∉ chars (content +:+ String NL "")) as Hcr.
  { unfold content. rewrite !chars_app. cbn [chars].
    rewrite !elem_of_app, !elem_of_cons, elem_of_nil.
    intros [[?|[?|?]]|[?|[]]]; [done|done| |done].
    by apply (chars_join_no TextFile.CR fields). }
  assert (ends_solid content = true) as Hsolid.
  { unfold content. apply ends_solid_app.
    assert (ends_solid (join TAB fields) = true) as Hj.
    { apply ends_solid_join; [|done]. intros f Hf. unfold fields in Hf.
      rewrite fmap_last in Hf. destruct (last order) as [trait|] eqn:Hl; [|done].
      simpl in Hf. injection Hf as <-. by apply Hlast. }
    rewrite ends_solid_cons; [done|]. by apply ends_solid_nonempty. }
  destruct (add_traits_all raw [] order (TraitTableEntry.__init__ (TraitTableEntry.name e)))
    as (e' & Hrun & Hn & Hlook); [done|by intros; apply lookup_empty|].
  exists e'. split; [|split; [done|split]].
  - unfold reparse_rows, iter_lines. rewrite reread_id by done.
    rewrite readlines_one_line by done.
    cbn [for_each]. unfold mbind at 1, state_exn_bind at 1.
    rewrite (iter_body_row _ _ _ (TraitTableEntry.name e) (join TAB fields)).
    + rewrite split_join by done. simpl in Hrun. fold fields in Hrun.
      by rewrite Hrun.
    + rewrite rstrip_app_space by done. rewrite rstrip_solid by done.
      unfold content. rewrite split_first by done. by rewrite split_zero.
  - intros trait Hin. rewrite Hlook, decide_True by done.
    unfold raw. rewrite field_text.
    destruct (TraitTableEntry.traits e !! trait) as [v|] eqn:Hv; simpl.
    + by rewrite (Hback trait v).
    + unfold TraitTableEntry.convert_value. by rewrite Hna.
  - intros trait Hin. rewrite Hlook, decide_False by done. apply lookup_empty.
Qed.

End RoundTripFacts.

(** ** Closed examples *)

(** C4, counterexample: with the trait [t] twice in the header, the row of
    [x] raises the duplicate error and the scan ends with it; the row of
    [y], which has one value only and follows, is never reached. *)
Lemma duplicate_header_aborts_scan :
  @TraitTableManager.__iter__ dec_builtins
     (TraitTableManager.__init__ duplicate_header_table) =
    {| events := [Yielded (entry1 "w" "t" "0")];
       raised := Some (ValueError "TraitTableEntry x already has a trait called 't'.") |}
  ∧ ¬ @Spec.scan_never_aborts dec_builtins.
Proof.
  assert (@TraitTableManager.__iter__ dec_builtins
            (TraitTableManager.__init__ duplicate_header_table) =
          {| events := [Yielded (entry1 "w" "t" "0")];
             raised := Some (ValueError
                         "TraitTableEntry x already has a trait called 't'.") |}) as Heq
    by reflexivity.
  split; [exact Heq|]. intros Hclaim.
  apply (Hclaim duplicate_header_table
           "TraitTableEntry x already has a trait called 't'.").
  by rewrite Heq.
Qed.

(** C9, counterexample: of the first header field [##OTU#ID] the code keeps
    [OTUID], every marker removed, where stripping a single leading marker
    gives [#OTU#ID]. *)
Lemma init_header_not_single_marker :
  TraitTableManager.entry_header (TraitTableManager.__init__ marker_table) = "OTUID"
  ∧ Spec.strip_single_marker "##OTU#ID" = "#OTU#ID"
  ∧ TraitTableManager.entry_header (TraitTableManager.__init__ marker_table)
    ≠ Spec.strip_single_marker
        (hd "" (Str.split Str.TAB None (Str.rstrip (Str.readline marker_table)))).
Proof. split; [reflexivity|]. split; [reflexivity|]. vm_compute. discriminate. Qed.

Section Closed.
#[local] Existing Instance dec_builtins.
#[local] Existing Instance no_pandas.
Import TraitTableEntry.

Lemma add_trait_stores_once_witness :
  let held := entry1 "x" "t" "1" in
  let fresh := __init__ "x" in
  is_Some (traits held !! "t")
  ∧ traits fresh !! "t" = None
  ∧ add_trait "t" "2" held = (inl (ValueError (duplicate_msg held "t")), held)
  ∧ ∃ fresh',
      add_trait "t" "2" fresh = (inr (), fresh')
      ∧ name fresh' = name fresh
      ∧ traits fresh' !! "t" =
          Some (match float "2" with Some x => Numeric x | None => Text "2" end)
      ∧ (∀ other, other ≠ "t" → traits fresh' !! other = traits fresh !! other)
      ∧ add_trait "t" "1" fresh' =
          (inl (ValueError (duplicate_msg fresh' "t")), fresh').
Proof.
  intros held fresh.
  assert (is_Some (traits held !! "t")) as Hheld by (eexists; reflexivity).
  assert (traits fresh !! "t" = None) as Hfresh by reflexivity.
  split; [exact Hheld|]. split; [exact Hfresh|].
  exact (add_trait_stores_once held fresh "t" "2" "1" Hheld Hfresh).
Defined.

Lemma add_trait_failure_atomic_witness :
  let held := entry1 "x" "t" "1" in
  let e := ValueError "TraitTableEntry x already has a trait called 't'." in
  add_trait "t" "2" held = (inl e, held)
  ∧ held = held
  ∧ e = ValueError (duplicate_msg held "t")
  ∧ is_Some (traits held !! "t").
Proof.
  intros held e.
  assert (add_trait "t" "2" held = (inl e, held)) as Hrun by reflexivity.
  split; [exact Hrun|].
  exact (add_trait_failure_atomic held held "t" "2" e Hrun).
Defined.

Lemma correlation_default_candidates_witness :
  let self := entry1 "x" "t1" "1" in
  let other := entry1 "y" "t2" "2" in
  dom (traits self) ## dom (traits other)
  ∧ correlation self other None = inl (ValueError no_shared_msg).
Proof.
  intros self other.
  assert (dom (traits self) ## dom (traits other)) as Hdisj.
  { unfold self, other, entry1. simpl. rewrite !dom_singleton_L.
    apply disjoint_singleton_l. rewrite elem_of_singleton. discriminate. }
  split; [exact Hdisj|].
  destruct (correlation_default_candidates self other None)
    as (_ & _ & _ & _ & Hfail & _).
  exact (Hfail Hdisj).
Defined.

End Closed.

Section ClosedTables.
#[local] Existing Instance dec_builtins.
#[local] Existing Instance no_pandas.
Import Str TraitTableManager.

Lemma iter_duplicate_trait_ends_scan_witness :
  let traits := ["t"; "t"] in
  let fr0 := {| locals := None; out := [] |} in
  let fr1 := {| locals := Some ("w", "0"); out := [Yielded (entry1 "w" "t" "0")] |} in
  let line := table_line ["x"; "1"; "2"] in
  iter_lines traits [table_line ["w"; "0"]] fr0 = (inr (), fr1)
  ∧ split TAB (Some 1) (rstrip line) = ["x"; "1" +:+ String TAB "2"]
  ∧ ∃ trait',
      finish (iter_lines traits ([table_line ["w"; "0"]] ++ line :: [table_line ["y"; "3"]]) fr0) =
        {| events := out fr1;
           raised := Some (ValueError
                       (TraitTableEntry.duplicate_msg (TraitTableEntry.__init__ "x") trait')) |}.
Proof.
  intros traits fr0 fr1 line.
  assert (iter_lines traits [table_line ["w"; "0"]] fr0 = (inr (), fr1)) as Hbefore
    by reflexivity.
  assert (split TAB (Some 1) (rstrip line) = ["x"; "1" +:+ String TAB "2"]) as Hsplit
    by reflexivity.
  split; [exact Hbefore|]. split; [exact Hsplit|].
  refine (iter_duplicate_trait_ends_scan traits [table_line ["w"; "0"]]
            [table_line ["y"; "3"]] line "x" ("1" +:+ String TAB "2") "t"
            fr0 fr1 0 1 Hbefore Hsplit _ _ _ _).
  - lia.
  - reflexivity.
  - reflexivity.
  - simpl. lia.
Defined.

End ClosedTables.

Section ClosedRoundTrip.
#[local] Existing Instance dec_builtins.
#[local] Existing Instance no_pandas.
Import Str TraitTableManager.

(** C5, counterexample: the text [a ] (with a final space) is stored as it
    is by [add_trait] and written as it is by [write_entry]; reading the row
    back, with either line separator, strips the end of the line, and the
    entry read has the text [a].  A text with a carriage return inside is
    written as it is too, and read back as two lines: the entry with the text
    before the carriage return, and for the rest, a line without a tab, the
    same entry again. *)
Lemma round_trip_drops_trailing_space :
  let e := entry_of_raw "x" "t" "a " in
  let e2 := entry_of_raw "x" "t" (with_return "a" "b") in
  TraitTableEntry.traits e !! "t" = Some (Text "a ")
  ∧ (write_entry e "" ["t"]).1 = table_line ["x"; "a "]
  ∧ (∀ crlf, reparse_rows crlf ["t"] (write_entry e "" ["t"]).1 =
               run_of [entry_of_raw "x" "t" "a"])
  ∧ TraitTableEntry.traits e2 !! "t" = Some (Text (with_return "a" "b"))
  ∧ (∀ crlf, reparse_rows crlf ["t"] (write_entry e2 "" ["t"]).1 =
               {| events := [Yielded (entry_of_raw "x" "t" "a"); Printed (table_line ["b"]);
                             Yielded (entry_of_raw "x" "t" "a")];
                  raised := None |})
  ∧ ¬ Spec.round_trip.
Proof.
  intros e e2.
  assert (∀ crlf, reparse_rows crlf ["t"] (write_entry e "" ["t"]).1 =
                    run_of [entry_of_raw "x" "t" "a"])
    as Hread by (intros [|]; reflexivity).
  split; [reflexivity|]. split; [reflexivity|]. split; [exact Hread|].
  split; [reflexivity|]. split; [intros [|]; reflexivity|].
  intros Hclaim. destruct (Hclaim false e ["t"]) as (e' & He' & _ & Hval).
  - apply NoDup_singleton.
  - intros trait. rewrite list_elem_of_singleton. split.
    + intros ->. by eexists.
    + intros [v Hv]. destruct (decide (trait = "t")) as [->|Hne]; [done|].
      unfold e, entry_of_raw in Hv. rewrite add_trait_fresh in Hv by done.
      simpl in Hv. rewrite lookup_insert_ne in Hv by done.
      by rewrite lookup_empty in Hv.
  - unfold entries in He'. rewrite Hread in He'. simpl in He'.
    injection He' as <-. specialize (Hval "t"). 
    assert ("t" ∈ ["t"]) as Hin by (by left). specialize (Hval Hin).
    discriminate Hval.
Qed.

Lemma write_entry_round_trip_witness :
  let order := ["t1"; "t2"; "t3"] in
  (write_entry sample_entry "" order).1 = table_line ["x"; "2.5"; "lo w"; "NA"]
  ∧ NoDup order
  ∧ clean (TraitTableEntry.name sample_entry) = true
  ∧ float "NA" = None
  ∧ ∃ e',
      reparse_rows true order (write_entry sample_entry "" order).1 =
        {| events := [Yielded e']; raised := None |}
      ∧ TraitTableEntry.name e' = TraitTableEntry.name sample_entry
      ∧ (∀ trait, trait ∈ order →
           TraitTableEntry.traits e' !! trait =
             Some (default (Text "NA") (TraitTableEntry.traits sample_entry !! trait)))
      ∧ (∀ trait, trait ∉ order → TraitTableEntry.traits e' !! trait = None).
Proof.
  intros order.
  assert (NoDup order) as Hnd by (apply (bool_decide_unpack _); vm_compute; exact I).
  assert (clean (TraitTableEntry.name sample_entry) = true) as Hname by reflexivity.
  assert (float "NA" = None) as Hna by reflexivity.
  split; [reflexivity|]. split; [exact Hnd|]. split; [exact Hname|]. split; [exact Hna|].
  refine (write_entry_round_trip true sample_entry order _ Hnd Hname _ _ _ Hna).
  - discriminate.
  - intros trait Hin. apply list_elem_of_In in Hin. simpl in Hin.
    destruct Hin as [<-|[<-|[<-|[]]]]; reflexivity.
  - intros trait Hlast. injection Hlast as <-. reflexivity.
  - intros trait v Hin Hv. apply list_elem_of_In in Hin. simpl in Hin.
    destruct Hin as [<-|[<-|[<-|[]]]];
      try discriminate Hv; injection Hv as <-; reflexivity.
Defined.

End ClosedRoundTrip.

(** * Further properties of the code *)

(** ** Splitting and joining *)

Section SplitFacts.
Import Str.

Lemma split_sep_free sep s : Forall (λ f, sep ∉ chars f) (split sep None s).
Proof.
  induction s as [|c s IH]; simpl.
  - apply Forall_singleton, not_elem_of_nil.
  - case_decide as Hc.
    + apply Forall_cons. split; [apply not_elem_of_nil|done].
    + destruct (split sep None s) as [|f fs]; simpl.
      * apply Forall_singleton. simpl. apply not_elem_of_cons. split; [done|].
        apply not_elem_of_nil.
      * apply Forall_cons in IH as [Hf Hfs]. apply Forall_cons. split; [|done].
        simpl. apply not_elem_of_cons. by split.
Qed.

Lemma join_cons_cons sep x y l :
  join sep (x :: y :: l) = x +:+ String sep (join sep (y :: l)).
Proof. done. Qed.

Lemma join_split sep s : join sep (split sep None s) = s.
Proof.
  induction s as [|c s IH]; [done|]. cbn [split]. case_decide as Hc.
  - subst. pose proof (split_nonempty sep None s) as Hne.
    destruct (split sep None s) as [|f fs] eqn:Hs; [done|].
    by rewrite join_cons_cons, IH.
  - pose proof (split_nonempty sep None s) as Hne.
    destruct (split sep None s) as [|f fs] eqn:Hs; [done|].
    cbn [cons_head]. destruct fs as [|g fs].
    + simpl in *. by rewrite IH.
    + rewrite join_cons_cons in *. rewrite app_String. by rewrite IH.
Qed.

Lemma split_sep_first sep f rest :
  sep ∉ chars f → split sep None (f +:+ String sep rest) = f :: split sep None rest.
Proof.
  induction f as [|c f IH]; intros Hsep.
  - change ("" +:+ String sep rest) with (String sep rest). cbn [split].
    by rewrite decide_True.
  - rewrite app_String. cbn [split].
    rewrite decide_False by (intros ->; apply Hsep; by left).
    rewrite IH; [done|]. intros ?. apply Hsep. by right.
Qed.

Lemma split_join_sep sep fields :
  fields ≠ [] → Forall (λ f, sep ∉ chars f) fields →
  split sep None (join sep fields) = fields.
Proof.
  induction fields as [|f fields IH]; [done|]. intros _ Hall.
  apply Forall_cons in Hall as [Hf Hall].
  destruct fields as [|g fields].
  - simpl. by apply split_tabless.
  - rewrite join_cons_cons, split_sep_first by done. f_equal. by apply IH.
Qed.

Lemma length_split sep s : length (split sep None s) = S (Picrust.count sep s).
Proof.
  unfold Picrust.count. induction s as [|c s IH]; [done|]. cbn [split chars].
  case_decide as Hc.
  - subst. rewrite filter_cons_True by done. simpl. by rewrite IH.
  - rewrite filter_cons_False by done.
    pose proof (split_nonempty sep None s) as Hne.
    destruct (split sep None s) as [|f fs]; [done|]. simpl in *. done.
Qed.

Lemma readlines_first_line l rest :
  NL ∉ chars l →
  readlines (l +:+ String NL rest) = (l +:+ String NL "") :: readlines rest.
Proof.
  induction l as [|c l IH]; intros Hnl.
  - done.
  - rewrite !app_String. cbn [readlines].
    rewrite decide_False by (intros ->; apply Hnl; by left).
    rewrite IH; [done|]. intros ?. apply Hnl. by right.
Qed.

Lemma chars_join_no_sep c sep fields :
  c ≠ sep → Forall (λ f, c ∉ chars f) fields → c ∉ chars (join sep fields).
Proof.
  intros Hc. induction fields as [|f fields IH]; intros Hall; [apply not_elem_of_nil|].
  apply Forall_cons in Hall as [Hf Hall].
  destruct fields as [|g fields]; [done|].
  rewrite join_cons_cons, chars_app. cbn [chars].
  rewrite elem_of_app, elem_of_cons. intros [?|[?|?]]; [done|done|by apply IH].
Qed.

Lemma string_app_nil_r (s : string) : s +:+ "" = s.
Proof. induction s as [|c s IH]; [done|]. by rewrite app_String, IH. Qed.

Lemma concat_cons (x : string) l : String.concat "" (x :: l) = x +:+ String.concat "" l.
Proof. destruct l; cbn [String.concat]; [by rewrite string_app_nil_r|done]. Qed.

Lemma chars_concat_no c l :
  Forall (λ s, c ∉ chars s) l → c ∉ chars (String.concat "" l).
Proof.
  induction l as [|x l IH]; intros Hall; [apply not_elem_of_nil|].
  apply Forall_cons in Hall as [Hx Hall].
  rewrite concat_cons, chars_app, elem_of_app. intros [?|?]; [done|by apply IH].
Qed.

Lemma readlines_no_newline s : NL ∉ chars s → s ≠ "" → readlines s = [s].
Proof.
  induction s as [|c s IH]; intros Hnl Hne; [done|]. cbn [readlines].
  rewrite decide_False by (intros ->; apply Hnl; by left).
  destruct s as [|a s]; [done|].
  rewrite IH; [done| |done]. intros ?. apply Hnl. by right.
Qed.

Lemma but_last_snoc s c : Picrust.but_last (s +:+ String c "") = s.
Proof.
  induction s as [|a s IH]; [done|]. rewrite app_String. cbn [Picrust.but_last].
  rewrite IH. by destruct s.
Qed.

End SplitFacts.

(** ** [get_ko_by_function] *)

Section KoFacts.
Import Str Picrust.

Lemma ko_names_for_cons level key ko pw pairs :
  ko_names_for level key ((ko, pw) :: pairs) =
    if decide (ko_key level pw = key) then ko :: ko_names_for level key pairs
    else ko_names_for level key pairs.
Proof.
  unfold ko_names_for. case_decide.
  - by rewrite filter_cons_True.
  - by rewrite filter_cons_False.
Qed.

Lemma ko_file_lookup level ko data pw key :
  ko_file level ko data pw !! key =
    if decide (ko_key level pw = key)
    then Some (default [] (data !! key) ++ [ko])
    else data !! key.
Proof.
  unfold ko_file. case_decide as Hk.
  - subst. destruct (data !! ko_key level pw); by rewrite lookup_insert_eq.
  - destruct (data !! ko_key level pw); by rewrite lookup_insert_ne.
Qed.

(** The dictionary after the pairs have been filed: under each key the names
    it had, then the names of the pairs of that key, in order. *)
Lemma ko_pairs_fold level data pairs key :
  foldl (ko_pair_step level) data pairs !! key =
    match data !! key with
    | Some names => Some (names ++ ko_names_for level key pairs)
    | None =>
        match ko_names_for level key pairs with
        | [] => None
        | names => Some names
        end
    end.
Proof.
  revert data. induction pairs as [|[ko pw] pairs IH]; intros data.
  - simpl. destruct (data !! key); [by rewrite app_nil_r|done].
  - cbn [foldl]. rewrite IH. unfold ko_pair_step. cbn [fst snd].
    rewrite ko_file_lookup, ko_names_for_cons. case_decide as Hk; [|done].
    destruct (data !! key) as [names|]; simpl.
    + by rewrite <- app_assoc.
    + done.
Qed.

Lemma ko_line_pairs level data line :
  ko_line level data line = foldl (ko_pair_step level) data (ko_pairs line).
Proof. unfold ko_line, ko_pairs. by rewrite foldl_fmap. Qed.

Lemma ko_lines_pairs level data lines :
  foldl (ko_line level) data lines = foldl (ko_pair_step level) data (lines ≫= ko_pairs).
Proof.
  revert data. induction lines as [|line lines IH]; intros data; [done|].
  cbn [foldl]. rewrite bind_cons, foldl_app, IH. by rewrite ko_line_pairs.
Qed.

Lemma level_in_range (level : Z) :
  level ∈ [1; 2; 3]%Z → (1 ≤ Z.to_nat level ≤ 3)%nat.
Proof.
  rewrite !elem_of_cons, elem_of_nil. intros [->|[->|[->|[]]]]; simpl; lia.
Qed.

Lemma get_ko_returns f level :
  level ∈ [1; 2; 3]%Z →
  get_ko_by_function f level =
    inr (foldl (ko_pair_step (Z.to_nat level)) ∅ (tail (readlines f) ≫= ko_pairs)).
Proof.
  intros Hlevel. unfold get_ko_by_function.
  rewrite bool_decide_eq_true_2 by done. by rewrite ko_lines_pairs.
Qed.

(** X1: The result of [get_ko_by_function] groups the KO names by key: under a
    key stand the names of the pairs (line, pathway) whose pathway has this
    key, in file order, a name once for each such pathway; a key with no such
    pair is absent. *)
Theorem get_ko_by_function_groups (ko_metadata_f : string) (level : Z) :
  level ∈ [1; 2; 3]%Z →
  ∃ data,
    get_ko_by_function ko_metadata_f level = inr data
    ∧ ∀ key,
        data !! key =
          match ko_names_for (Z.to_nat level) key
                  (tail (readlines ko_metadata_f) ≫= ko_pairs) with
          | [] => None
          | names => Some names
          end.
Proof.
  intros Hlevel. eexists. split; [by apply get_ko_returns|].
  intros key. by rewrite ko_pairs_fold, lookup_empty.
Qed.

Lemma ko_key_levels level pw :
  1 ≤ level → split SEMI None (ko_key level pw) = take level (split SEMI None pw).
Proof.
  intros Hlevel. unfold ko_key. apply split_join_sep.
  - pose proof (split_nonempty SEMI None pw). destruct (split SEMI None pw); [done|].
    by destruct level; [lia|].
  - apply Forall_take, split_sep_free.
Qed.

(** X2: Whatever the file holds, every key of the result has at most [level]
    levels, and the list under it is not empty. *)
Theorem get_ko_by_function_key_levels (ko_metadata_f : string) (level : Z)
    (data : gmap string (list string)) (key : string) (names : list string) :
  get_ko_by_function ko_metadata_f level = inr data →
  data !! key = Some names →
  names ≠ []
  ∧ 1 ≤ length (split SEMI None key) ≤ Z.to_nat level
  ∧ Z.to_nat level ≤ 3.
Proof.
  intros Hrun Hkey.
  assert (level ∈ [1; 2; 3]%Z) as Hlevel.
  { unfold get_ko_by_function in Hrun. by case_bool_decide. }
  pose proof (level_in_range level Hlevel) as Hrange.
  rewrite get_ko_returns in Hrun by done. injection Hrun as <-.
  rewrite ko_pairs_fold, lookup_empty in Hkey.
  destruct (ko_names_for _ _ _) as [|n ns] eqn:Hnames; [done|].
  injection Hkey as <-. split; [done|]. split; [|lia].
  assert (n ∈ ko_names_for (Z.to_nat level) key (tail (readlines ko_metadata_f) ≫= ko_pairs))
    as Hin by (rewrite Hnames; by left).
  unfold ko_names_for in Hin. apply list_elem_of_fmap in Hin as ([ko pw] & _ & Hin).
  apply list_elem_of_filter in Hin as [Hk _]. cbn [snd] in Hk. subst key.
  rewrite ko_key_levels by lia. rewrite length_take.
  pose proof (split_nonempty SEMI None pw). destruct (split SEMI None pw); [done|].
  simpl. lia.
Qed.

(** X3: Nothing is dropped: each KO of each data line stands under the key of
    each of its pathways; and the key of a pathway that has no more than
    [level] levels is the pathway itself (the [IndexError] handler of the
    source is never needed). *)
Theorem get_ko_by_function_files_all (ko_metadata_f : string) (level : Z)
    (line ko pw : string) :
  level ∈ [1; 2; 3]%Z →
  line ∈ tail (readlines ko_metadata_f) →
  (ko, pw) ∈ ko_pairs line →
  ∃ data names,
    get_ko_by_function ko_metadata_f level = inr data
    ∧ data !! ko_key (Z.to_nat level) pw = Some names
    ∧ ko ∈ names
    ∧ (count SEMI pw < Z.to_nat level → ko_key (Z.to_nat level) pw = pw).
Proof.
  intros Hlevel Hline Hpair.
  pose proof (get_ko_returns ko_metadata_f level Hlevel) as Hrun.
  set (data := foldl (ko_pair_step (Z.to_nat level)) ∅
                 (tail (readlines ko_metadata_f) ≫= ko_pairs)) in Hrun.
  assert (∀ key, data !! key =
            match ko_names_for (Z.to_nat level) key
                    (tail (readlines ko_metadata_f) ≫= ko_pairs) with
            | [] => None
            | names => Some names
            end) as Hdata.
  { intros key. unfold data. by rewrite ko_pairs_fold, lookup_empty. }
  assert (ko ∈ ko_names_for (Z.to_nat level) (ko_key (Z.to_nat level) pw)
                 (tail (readlines ko_metadata_f) ≫= ko_pairs)) as Hin.
  { unfold ko_names_for. apply list_elem_of_fmap. exists (ko, pw). split; [done|].
    apply list_elem_of_filter. split; [done|]. apply list_elem_of_bind. eauto. }
  exists data. specialize (Hdata (ko_key (Z.to_nat level) pw)).
  destruct (ko_names_for _ _ _) as [|n ns] eqn:Hnames; [by apply elem_of_nil in Hin|].
  exists (n :: ns). split; [done|]. split; [done|]. split; [done|].
  intros Hshort. unfold ko_key. rewrite take_ge; [apply join_split|].
  rewrite length_split. lia.
Qed.

End KoFacts.

(** ** [get_plant_associated_kos] *)

Section PlantFacts.
Import Str Picrust.

Lemma plant_line_error data line e :
  plant_line data line = inl e → ∃ msg, e = ValueError msg.
Proof.
  unfold plant_line. intros Hrun.
  destruct (split TAB None (but_last line)) as [|a [|b [|c l]]]; simplify_eq; eauto.
Qed.

Lemma plant_line_returns data line :
  (∃ data', plant_line data line = inr data') ↔ count TAB (but_last line) = 1.
Proof.
  unfold plant_line. pose proof (length_split TAB (but_last line)) as Hlen.
  destruct (split TAB None (but_last line)) as [|a [|b [|c l]]]; simpl in Hlen.
  - lia.
  - split; [by intros [? ?]|lia].
  - split; [lia|eauto].
  - split; [by intros [? ?]|lia].
Qed.

Lemma plant_lines_error data lines e :
  plant_lines data lines = inl e → ∃ msg, e = ValueError msg.
Proof.
  revert data. induction lines as [|line lines IH]; intros data Hrun; [done|].
  simpl in Hrun. destruct (plant_line data line) as [e'|data'] eqn:Hline.
  - simplify_eq. by eapply plant_line_error.
  - by eapply IH.
Qed.

Lemma plant_lines_returns data lines :
  (∃ data', plant_lines data lines = inr data')
  ↔ Forall (λ line, count TAB (but_last line) = 1) lines.
Proof.
  revert data. induction lines as [|line lines IH]; intros data.
  - split; [by intros|]. intros _. by eexists.
  - simpl. rewrite Forall_cons, <- plant_line_returns. split.
    + intros [data' Hrun]. destruct (plant_line data line) as [|d] eqn:Hline; [done|].
      split; [by eexists|]. apply (IH d). by eexists.
    + intros [[d Hd] Hrest]. rewrite Hd. by apply IH.
Qed.

(** X4: [get_plant_associated_kos] returns a dictionary exactly when every data
    line has one tab, and only one, before its last character; otherwise it
    raises [ValueError] (from the unpacking) and returns nothing, whatever the
    other lines hold.  A blank line is such a line. *)
Theorem get_plant_associated_kos_returns (plant_associated_f : string) :
  ((∃ data, get_plant_associated_kos plant_associated_f = inr data)
   ↔ Forall (λ line, count TAB (but_last line) = 1)
        (tail (readlines plant_associated_f)))
  ∧ (∀ e, get_plant_associated_kos plant_associated_f = inl e → ∃ msg, e = ValueError msg)
  ∧ count TAB (but_last (String NL "")) ≠ 1.
Proof.
  split; [apply plant_lines_returns|]. split; [|done].
  intros e. apply plant_lines_error.
Qed.

Lemma string_app_assoc (s1 s2 s3 : string) : (s1 +:+ s2) +:+ s3 = s1 +:+ (s2 +:+ s3).
Proof. induction s1 as [|c s1 IH]; [done|]. rewrite !app_String. by rewrite IH. Qed.

Lemma join_empty_iff sep l : join sep l = "" ↔ l = [] ∨ l = [""].
Proof.
  split.
  - destruct l as [|x [|y l]]; [by left| |].
    + simpl. intros ->. by right.
    + rewrite join_cons_cons. destruct x; done.
  - by intros [->| ->].
Qed.

(** A well-formed line, with any last character, files the KOs written
    before that character. *)
Lemma plant_line_record data lineage kos c :
  TAB ∉ chars lineage → TAB ∉ chars kos →
  plant_line data ((lineage +:+ String TAB kos) +:+ String c "") =
    inr (<[lineage := if decide (kos = "") then [] else split SEMI None kos]> data).
Proof.
  intros Hl Hk. unfold plant_line. rewrite but_last_snoc.
  rewrite split_sep_first by done. by rewrite split_tabless.
Qed.

Lemma plant_row_line data record :
  plant_record_ok record →
  plant_line data (plant_row record) = inr (<[record.1 := record.2]> data).
Proof.
  destruct record as [lineage kos]. intros (Htab & _ & Hkos & Hne). cbn [fst snd] in *.
  unfold plant_row. cbn [fst snd].
  change (lineage +:+ String TAB (join SEMI kos) +:+ String NL "")
    with (lineage +:+ (String TAB (join SEMI kos) +:+ String NL "")).
  rewrite <- string_app_assoc. rewrite plant_line_record; [|done|].
  - do 2 f_equal. case_decide as Hj.
    + apply join_empty_iff in Hj as [Hj|Hj]; by rewrite Hj in *.
    + apply split_join_sep.
      * intros ->. by apply Hj.
      * eapply Forall_impl; [exact Hkos|]. by intros ko (_ & _ & ?).
  - apply chars_join_no_sep; [done|].
    eapply Forall_impl; [exact Hkos|]. by intros ko (? & _ & _).
Qed.

Lemma plant_row_chars record :
  plant_record_ok record →
  ∃ content, plant_row record = content +:+ String NL "" ∧ NL ∉ chars content.
Proof.
  destruct record as [lineage kos]. intros (_ & Hnl & Hkos & _). cbn [fst snd] in *.
  exists (lineage +:+ String TAB (join SEMI kos)). split.
  - unfold plant_row. cbn [fst snd]. by rewrite string_app_assoc.
  - rewrite chars_app. cbn [chars]. rewrite elem_of_app, elem_of_cons.
    intros [?|[?|Hin]]; [done|done|]. revert Hin. apply chars_join_no_sep; [done|].
    eapply Forall_impl; [exact Hkos|]. by intros ko (_ & ? & _).
Qed.

Lemma readlines_rows records rest :
  Forall plant_record_ok records →
  readlines (String.concat "" (plant_row <$> records) +:+ rest) =
    (plant_row <$> records) ++ readlines rest.
Proof.
  induction records as [|r records IH]; intros Hall; [done|].
  apply Forall_cons in Hall as [Hr Hall].
  destruct (plant_row_chars r Hr) as (content & Hrow & Hnl).
  rewrite fmap_cons.
  assert (∀ l, String.concat "" (plant_row r :: l) = plant_row r +:+ String.concat "" l)
    as Hcat.
  { intros [|x l]; cbn [String.concat]; [|done].
    clear. induction (plant_row r) as [|c s IHs]; [done|]. by rewrite app_String, <- IHs. }
  rewrite Hcat, Hrow, !string_app_assoc.
  change (String NL "" +:+ (String.concat "" (plant_row <$> records) +:+ rest))
    with (String NL (String.concat "" (plant_row <$> records) +:+ rest)).
  rewrite readlines_first_line by done. by rewrite IH.
Qed.

Lemma plant_lines_rows data records rest :
  Forall plant_record_ok records →
  plant_lines data ((plant_row <$> records) ++ rest) =
    plant_lines (list_to_map (reverse records) ∪ data) rest.
Proof.
  revert data. induction records as [|r records IH]; intros data Hall.
  - simpl. by rewrite (left_id_L ∅ (∪)).
  - apply Forall_cons in Hall as [Hr Hall]. rewrite fmap_cons. cbn [app plant_lines].
    rewrite plant_row_line by done. rewrite IH by done.
    rewrite reverse_cons, list_to_map_app. destruct r as [k v]. cbn [fst snd].
    rewrite <- (assoc_L (∪)). do 2 f_equal.
    by rewrite insert_union_singleton_l.
Qed.

Lemma plant_text_reads header records :
  NL ∉ chars header →
  Forall plant_record_ok records →
  get_plant_associated_kos (plant_text header records) =
    inr (list_to_map (reverse records)).
Proof.
  intros Hheader Hall. unfold get_plant_associated_kos, plant_text.
  rewrite readlines_first_line by done. cbn [tail].
  rewrite <- (string_app_nil_r (String.concat "" _)).
  rewrite readlines_rows by done. cbn [readlines].
  rewrite plant_lines_rows by done. simpl. by rewrite (right_id_L ∅ (∪)).
Qed.

Lemma plant_text_no_cr header records :
  TextFile.CR ∉ chars header →
  Forall plant_record_portable records →
  TextFile.CR ∉ chars (plant_text header records).
Proof.
  intros Hheader Hall. unfold plant_text. rewrite chars_app. cbn [chars].
  rewrite elem_of_app, elem_of_cons. intros [?|[?|Hin]]; [done|done|].
  revert Hin. apply chars_concat_no, Forall_fmap.
  eapply Forall_impl; [exact Hall|]. intros [lineage kos] (_ & Hl & Hkos).
  cbn [fst snd] in *. unfold compose, plant_row. cbn [fst snd].
  rewrite !chars_app. cbn [chars].
  rewrite !elem_of_app, !elem_of_cons, elem_of_nil.
  intros [?|[[?|?]|[?|[]]]]; [done|done| |done].
  by apply (chars_join_no_sep TextFile.CR SEMI kos).
Qed.

(** X5: A database written to a text file one record a line, and read from
    that file, gives the records back, whatever the line separator of the
    platform: each lineage with its list of KOs, the last record of a lineage
    winning when a lineage is repeated.  The first line is skipped whatever
    it says.  Lineages and KOs hold no tab, line feed or carriage return, and
    KOs no semicolon.  With a carriage return inside a lineage the line is
    read as two, and the unpacking of the first one raises [ValueError]. *)
Theorem get_plant_associated_kos_round_trip (crlf : bool) (header : string)
    (records : list (string * list string)) :
  NL ∉ chars header → TextFile.CR ∉ chars header →
  Forall plant_record_portable records →
  get_plant_associated_kos (TextFile.reread crlf (plant_text header records)) =
    inr (list_to_map (reverse records))
  ∧ get_plant_associated_kos
      (TextFile.reread crlf (plant_text "lineage" [(with_return "L" "1", ["K1"])])) =
      inl (ValueError (unpack_msg 1)).
Proof.
  intros Hnl Hcr Hall. split; [|by destruct crlf].
  rewrite reread_id by by apply plant_text_no_cr.
  apply plant_text_reads; [done|].
  eapply Forall_impl; [exact Hall|]. by intros record (? & _).
Qed.

(** X6: When the file does not end with a newline, the last character of its
    last line is dropped with [line[:-1]]: the last KO of that line loses its
    last character. *)
Theorem get_plant_associated_kos_last_line (header lineage kos : string) (c : ascii)
    (records : list (string * list string)) :
  NL ∉ chars header →
  Forall plant_record_ok records →
  TAB ∉ chars lineage → NL ∉ chars lineage →
  TAB ∉ chars kos → NL ∉ chars kos → c ≠ NL →
  get_plant_associated_kos
    (plant_text header records +:+ ((lineage +:+ String TAB kos) +:+ String c "")) =
    inr (<[lineage := if decide (kos = "") then [] else split SEMI None kos]>
           (list_to_map (reverse records))).
Proof.
  intros Hheader Hall Hlt Hln Hkt Hkn Hc. unfold get_plant_associated_kos, plant_text.
  rewrite string_app_assoc. rewrite app_String.
  rewrite readlines_first_line by done. cbn [tail].
  rewrite readlines_rows by done.
  rewrite plant_lines_rows by done. rewrite (right_id_L ∅ (∪)).
  rewrite readlines_no_newline.
  - cbn [plant_lines]. by rewrite plant_line_record.
  - rewrite !chars_app. cbn [chars]. rewrite !elem_of_app, !elem_of_cons, elem_of_nil.
    intros [[?|[?|?]]|[?|[]]]; done.
  - by destruct lineage.
Qed.

End PlantFacts.

(** ** More on [TraitTableManager.__iter__] *)

Section IterMoreFacts.
Context `{PD : Pandas}.
Import Str TraitTableManager.

Lemma add_trait_name (self self' : TraitTableEntry.t) trait raw r :
  TraitTableEntry.add_trait trait raw self = (r, self') →
  TraitTableEntry.name self' = TraitTableEntry.name self.
Proof.
  destruct (TraitTableEntry.traits self !! trait) as [v|] eqn:Hl.
  - rewrite add_trait_present by (by rewrite Hl; eexists). by intros [= _ <-].
  - rewrite add_trait_fresh by done. by intros [= _ <-].
Qed.

(** With distinct trait names, the loop over the values of a row stores
    them one by one and stops with [IndexError] when the names run out; it
    never raises the duplicate error. *)
Lemma add_traits_distinct pre post vals (self : TraitTableEntry.t) :
  NoDup post →
  (∀ trait, trait ∈ post → TraitTableEntry.traits self !! trait = None) →
  add_traits (pre ++ post) (length pre) vals self =
    if decide (length vals ≤ length post) then
      (inr (),
       {| TraitTableEntry.name := TraitTableEntry.name self;
          TraitTableEntry.traits :=
            list_to_map (zip post (TraitTableEntry.convert_value <$> vals))
            ∪ TraitTableEntry.traits self |})
    else
      (inl IndexError,
       {| TraitTableEntry.name := TraitTableEntry.name self;
          TraitTableEntry.traits :=
            list_to_map (zip post (TraitTableEntry.convert_value <$> vals))
            ∪ TraitTableEntry.traits self |}).
Proof.
  revert pre post self. induction vals as [|v vals IH]; intros pre post self Hnd Hfresh.
  - cbn [add_traits]. case_decide as Hle; [|simpl in Hle; lia].
    rewrite fmap_nil, zip_with_nil_r. cbn [list_to_map foldr].
    rewrite (left_id_L ∅ (∪)). by destruct self.
  - cbn [add_traits]. destruct post as [|p post].
    + rewrite app_nil_r, lookup_ge_None_2 by lia.
      case_decide as Hle; [simpl in Hle; lia|]. cbn [zip_with list_to_map foldr].
      rewrite (left_id_L ∅ (∪)). by destruct self.
    + apply NoDup_cons in Hnd as [Hp Hnd].
      rewrite lookup_app_r by lia. rewrite Nat.sub_diag. cbn [lookup list_lookup].
      unfold mbind, state_exn_bind.
      rewrite add_trait_fresh by (apply Hfresh; by left).
      set (self1 := {| TraitTableEntry.name := _; TraitTableEntry.traits := _ |}).
      specialize (IH (pre ++ [p]) post self1 Hnd).
      rewrite <- app_assoc, length_app in IH. simpl in IH.
      rewrite Nat.add_1_r in IH. rewrite IH; last first.
      { intros trait Hin. unfold self1. simpl.
        rewrite lookup_insert_ne by (by intros ->). apply Hfresh. by right. }
      assert (list_to_map (zip post (TraitTableEntry.convert_value <$> vals))
                ∪ TraitTableEntry.traits self1
              = list_to_map (zip (p :: post) (TraitTableEntry.convert_value <$> v :: vals))
                ∪ TraitTableEntry.traits self) as Hmap.
      { unfold self1. simpl. rewrite <- insert_union_l.
        rewrite <- insert_union_r; [done|].
        apply not_elem_of_list_to_map_1. intros Hin.
        apply list_elem_of_fmap in Hin as ([k c] & -> & Hin).
        apply elem_of_zip_l in Hin. done. }
      unfold self1 in Hmap. cbn [TraitTableEntry.traits] in Hmap. rewrite Hmap.
      cbn [length].
      destruct (decide (length vals ≤ length post));
        [rewrite decide_True by lia|rewrite decide_False by lia]; done.
Qed.

Lemma add_traits_row traits name vals :
  NoDup traits →
  add_traits traits 0 vals (TraitTableEntry.__init__ name) =
    (if decide (length vals ≤ length traits) then inr () else inl IndexError,
     row_entry traits name vals).
Proof.
  intros Hnd.
  pose proof (add_traits_distinct [] traits vals (TraitTableEntry.__init__ name) Hnd) as Hrun.
  simpl in Hrun. rewrite Hrun by (intros; apply lookup_empty).
  unfold row_entry. rewrite (right_id_L ∅ (∪)). by case_decide.
Qed.

Lemma iter_lines_app traits l1 l2 (fr : frame) :
  iter_lines traits (l1 ++ l2) fr =
    match iter_lines traits l1 fr with
    | (inl e, fr') => (inl e, fr')
    | (inr _, fr') => iter_lines traits l2 fr'
    end.
Proof. apply for_each_app. Qed.

Lemma iter_lines_ok traits lines (fr : frame) :
  NoDup traits → Forall (line_ok traits) lines →
  ∃ locals',
    iter_lines traits lines fr =
      (inr (), {| locals := locals';
                  out := out fr ++ (Yielded <$> (line_entry traits <$> lines)) |}).
Proof.
  intros Hnd. revert fr. induction lines as [|line lines IH]; intros fr Hall.
  - exists (locals fr). simpl. rewrite app_nil_r. by destruct fr.
  - apply Forall_cons in Hall as [(name & tv & Hsplit & Hlen) Hall].
    unfold iter_lines in *. cbn [for_each]. unfold mbind at 1, state_exn_bind at 1.
    rewrite (iter_body_row _ _ _ name tv) by done.
    rewrite add_traits_row by done. rewrite decide_True by done.
    edestruct IH as (locals' & ->); [done|]. exists locals'. simpl.
    rewrite <- app_assoc. unfold line_entry. by rewrite Hsplit.
Qed.

(** X7: A table whose header names are distinct and whose data lines all have a
    name, a tab and no more values than there are names is read without
    error and without printing, and each line yields its own entry: the first
    field as name, the i-th value, converted, under the i-th trait name (a
    shorter row fills a prefix of the names). *)
Theorem iter_well_formed_table (self : t) :
  NoDup (traits self) →
  Forall (line_ok (traits self)) (tail (readlines (trait_table_f self))) →
  __iter__ self =
    run_of (line_entry (traits self) <$> tail (readlines (trait_table_f self))).
Proof.
  intros Hnd Hall. unfold __iter__.
  destruct (iter_lines_ok (traits self) _ {| locals := None; out := [] |} Hnd Hall)
    as (locals' & ->).
  done.
Qed.

Lemma for_each_invariant {S A} (body : A → state_exn S ()) (I : S → Prop) l s r s' :
  (∀ x s r s', body x s = (r, s') → I s → I s') →
  I s → for_each body l s = (r, s') → I s'.
Proof.
  intros Hbody. revert s. induction l as [|x l IH]; intros s Hs Hrun.
  - by injection Hrun as <- <-.
  - cbn [for_each] in Hrun. unfold mbind, state_exn_bind in Hrun.
    destruct (body x s) as [[e|[]] s1] eqn:Hx.
    + injection Hrun as <- <-. by eapply Hbody.
    + eapply IH; [|done]. by eapply Hbody.
Qed.

Lemma split_once s :
  TAB ∈ chars s →
  ∃ a b, split TAB (Some 1) s = [a; b] ∧ (TAB ∉ chars a) ∧ s = a +:+ String TAB b.
Proof.
  induction s as [|c s IH]; intros Hin; [by apply elem_of_nil in Hin|].
  cbn [split]. case_decide as Hc.
  - subst. exists "", s. rewrite split_zero. split; [done|]. split; [|done].
    apply not_elem_of_nil.
  - apply elem_of_cons in Hin as [?|Hin]; [done|].
    destruct (IH Hin) as (a & b & -> & Ha & ->).
    exists (String c a), b. split; [done|]. split; [|done].
    simpl. apply not_elem_of_cons. by split.
Qed.

Lemma split_once_inv s a b :
  split TAB (Some 1) s = [a; b] → (TAB ∉ chars a) ∧ TAB ∈ chars s.
Proof.
  intros Hsplit. destruct (decide (TAB ∈ chars s)) as [Hin|Hnot].
  - destruct (split_once s Hin) as (a' & b' & Hs & Ha & _).
    rewrite Hs in Hsplit. by injection Hsplit as -> ->.
  - by rewrite split_tabless in Hsplit.
Qed.

(** What the loop over the values of a row can do to an entry: the name
    stays, the traits it had stay, and what is added stands under a header
    name and is a float or a text that [float] rejects; it can only fail with
    [IndexError] or with the duplicate error. *)
Lemma add_traits_invariant traits k vals (self self' : TraitTableEntry.t) r :
  add_traits traits k vals self = (r, self') →
  TraitTableEntry.name self' = TraitTableEntry.name self
  ∧ (∀ trait v, TraitTableEntry.traits self' !! trait = Some v →
       TraitTableEntry.traits self !! trait = Some v
       ∨ (trait ∈ traits ∧ value_ok v ∧ ∃ raw, raw ∈ vals ∧ v = TraitTableEntry.convert_value raw))
  ∧ (∀ e, r = inl e → e = IndexError ∨ ∃ msg, e = ValueError msg).
Proof.
  revert k self. induction vals as [|val vals IH]; intros k self Hrun.
  - injection Hrun as <- <-. split; [done|]. split; [by left|done].
  - cbn [add_traits] in Hrun. destruct (traits !! k) as [trait|] eqn:Hk.
    + unfold mbind, state_exn_bind in Hrun.
      destruct (TraitTableEntry.traits self !! trait) as [old|] eqn:Hold.
      * rewrite add_trait_present in Hrun by (by rewrite Hold; eexists).
        injection Hrun as <- <-. split; [done|]. split; [by left|].
        intros e [= <-]. right. by eexists.
      * rewrite add_trait_fresh in Hrun by done.
        apply IH in Hrun as (Hname & Htraits & Herr). split; [done|]. split; [|done].
        intros t v Hv. destruct (Htraits t v Hv) as [Hin|(Hin & Hok & raw & Hraw & ->)].
        -- simpl in Hin. destruct (decide (trait = t)) as [->|Hne].
           ++ rewrite lookup_insert_eq in Hin. injection Hin as <-. right.
              split; [by eapply list_elem_of_lookup_2|]. split.
              ** unfold TraitTableEntry.convert_value, value_ok.
                 by destruct (float val) eqn:Hf.
              ** exists val. split; [by left|done].
           ++ rewrite lookup_insert_ne in Hin by done. by left.
        -- right. split; [done|]. split; [done|]. exists raw. split; [by right|done].
    + injection Hrun as <- <-. split; [done|]. split; [by left|].
      intros e [= <-]. by left.
Qed.

(** With distinct header names the duplicate error cannot arise. *)
Lemma iter_body_distinct traits line (fr fr' : frame) e :
  NoDup traits → iter_body traits line fr = (inl e, fr') →
  e = IndexError ∨ e = UnboundLocalError "name".
Proof.
  intros Hnd Hrun. destruct (decide (line = "")) as [->|Hline]; [done|].
  destruct (decide (TAB ∈ chars (rstrip line))) as [Htab|Htab].
  - destruct (split_once _ Htab) as (a & b & Hsplit & _).
    rewrite (iter_body_row _ _ _ a b) in Hrun by done.
    rewrite add_traits_row in Hrun by done.
    case_decide; simplify_eq. by left.
  - rewrite iter_body_tabless in Hrun by done. cbn in Hrun.
    destruct (locals fr) as [[n tv]|]; [|simplify_eq; by right].
    rewrite add_traits_row in Hrun by done.
    case_decide; simplify_eq. by left.
Qed.

(** X8: With distinct trait names in the header, [__iter__] never ends in the
    duplicate error: the only exceptions left are [IndexError] (a row longer
    than the header) and [UnboundLocalError] (see below). *)
Theorem iter_distinct_header_no_duplicate_error (self : t) (e : exn) :
  NoDup (traits self) →
  raised (__iter__ self) = Some e →
  e = IndexError ∨ e = UnboundLocalError "name".
Proof.
  intros Hnd. unfold __iter__, finish, iter_lines. cbn [raised].
  generalize ({| locals := None; out := [] |}).
  induction (tail (readlines (trait_table_f self))) as [|line lines IH]; intros fr.
  - done.
  - cbn [for_each]. unfold mbind at 1, state_exn_bind at 1.
    destruct (iter_body (traits self) line fr) as [[e'|[]] fr'] eqn:Hbody.
    + cbn. intros [= <-]. by eapply iter_body_distinct.
    + apply IH.
Qed.

(** X9: A row with more values than the header has trait names ends the scan
    with [IndexError]: what the earlier lines produced stays, no entry is
    emitted for the row, and no later line is looked at. *)
Theorem iter_long_row_ends_scan
    (traits before after : list string) (line name tv : string) (fr0 fr1 : frame) :
  NoDup traits →
  iter_lines traits before fr0 = (inr (), fr1) →
  split TAB (Some 1) (rstrip line) = [name; tv] →
  length traits < length (split TAB None tv) →
  finish (iter_lines traits (before ++ line :: after) fr0) =
    {| events := out fr1; raised := Some IndexError |}.
Proof.
  intros Hnd Hbefore Hsplit Hlen.
  rewrite iter_lines_app, Hbefore. unfold iter_lines. cbn [for_each].
  unfold mbind, state_exn_bind. rewrite (iter_body_row _ _ _ name tv) by done.
  rewrite add_traits_row by done. by rewrite decide_False by lia.
Qed.

Lemma iter_body_bound traits line (fr fr' : frame) r :
  is_Some (locals fr) → iter_body traits line fr = (r, fr') →
  is_Some (locals fr') ∧ r ≠ inl (UnboundLocalError "name").
Proof.
  intros Hloc Hrun. destruct (decide (line = "")) as [->|Hline].
  { injection Hrun as <- <-. done. }
  destruct (decide (TAB ∈ chars (rstrip line))) as [Htab|Htab].
  - destruct (split_once _ Htab) as (a & b & Hsplit & _).
    rewrite (iter_body_row _ _ _ a b) in Hrun by done.
    destruct (add_traits _ _ _ _) as [[e|[]] tte] eqn:Hadd.
    + injection Hrun as <- <-. split; [by eexists|].
      apply add_traits_invariant in Hadd as (_ & _ & Herr).
      destruct (Herr e eq_refl) as [->|[msg ->]]; done.
    + injection Hrun as <- <-. split; [by eexists|done].
  - rewrite iter_body_tabless in Hrun by done. cbn in Hrun.
    destruct Hloc as [[n tv] Hloc]. rewrite Hloc in Hrun.
    destruct (add_traits _ _ _ _) as [[e|[]] tte] eqn:Hadd.
    + injection Hrun as <- <-. split; [by eexists|].
      apply add_traits_invariant in Hadd as (_ & _ & Herr).
      destruct (Herr e eq_refl) as [->|[msg ->]]; done.
    + injection Hrun as <- <-. split; [by eexists|done].
Qed.

Lemma iter_lines_bound traits lines (fr fr' : frame) r :
  is_Some (locals fr) → iter_lines traits lines fr = (r, fr') →
  r ≠ inl (UnboundLocalError "name").
Proof.
  unfold iter_lines. revert fr. induction lines as [|l lines IH]; intros fr Hfr Hrun.
  - by injection Hrun as <- <-.
  - cbn [for_each] in Hrun. unfold mbind, state_exn_bind in Hrun.
    destruct (iter_body traits l fr) as [[e|[]] f1] eqn:Hb.
    + injection Hrun as <- <-. by eapply iter_body_bound.
    + eapply IH; [|done]. by eapply iter_body_bound.
Qed.

(** X10: [__iter__] ends in [UnboundLocalError] exactly when the first data line
    has no tab once stripped: after a first line with a tab the locals are
    bound for the rest of the scan. *)
Theorem iter_unbound_iff_first_line_tabless (self : t) :
  raised (__iter__ self) = Some (UnboundLocalError "name")
  ↔ ∃ line rest,
      tail (readlines (trait_table_f self)) = line :: rest
      ∧ TAB ∉ chars (rstrip line).
Proof.
  unfold __iter__, finish. cbn [raised].
  assert (EmptyString ∉ tail (readlines (trait_table_f self))) as Hne.
  { intros Hin. apply (readlines_no_empty_line (trait_table_f self)).
    destruct (readlines (trait_table_f self)); [done|by right]. }
  destruct (tail (readlines (trait_table_f self))) as [|line lines].
  - split; [done|]. by intros (? & ? & ? & _).
  - assert (line ≠ "") as Hline by (intros ->; apply Hne; by left).
    change (line :: lines) with ([line] ++ lines). rewrite iter_lines_app.
    unfold iter_lines at 1. cbn [for_each]. unfold mbind, state_exn_bind.
    destruct (decide (TAB ∈ chars (rstrip line))) as [Htab|Htab].
    + split; [|intros (? & ? & [= <- <-] & ?); done].
      destruct (split_once _ Htab) as (a & b & Hsplit & _).
      rewrite (iter_body_row _ _ _ a b) by done.
      destruct (add_traits _ _ _ _) as [[e|[]] tte] eqn:Hrun.
      * cbn. intros [= ->].
        apply add_traits_invariant in Hrun as (_ & _ & Herr).
        destruct (Herr _ eq_refl) as [?|[? ?]]; done.
      * cbn [mret state_exn_ret].
        destruct (iter_lines _ lines _) as [r fr'] eqn:Hrest.
        apply iter_lines_bound in Hrest; [|by eexists].
        cbn. destruct r as [e|[]]; [|done]. intros [= ->]. done.
    + rewrite iter_body_tabless by done. cbn.
      split; [|done]. intros _. by exists line, lines.
Qed.

Lemma yields_snoc (evs : list event) (e : TraitTableEntry.t) :
  yields (evs ++ [Yielded e]) = yields evs ++ [e].
Proof. unfold yields. by rewrite omap_app. Qed.

Lemma yields_snoc_Printed (evs : list event) line :
  yields (evs ++ [Printed line]) = yields evs.
Proof. unfold yields. rewrite omap_app. simpl. by rewrite app_nil_r. Qed.

Lemma add_traits_entry_ok traits name vals r tte :
  TAB ∉ chars name →
  add_traits traits 0 vals (TraitTableEntry.__init__ name) = (r, tte) →
  entry_ok traits tte.
Proof.
  intros Hname Hrun. apply add_traits_invariant in Hrun as (Hn & Htraits & _).
  split; [by rewrite Hn|]. intros trait v Hv.
  destruct (Htraits trait v Hv) as [Hin|(Hin & Hok & _)]; [|done].
  simpl in Hin. by rewrite lookup_empty in Hin.
Qed.

Lemma iter_body_frame_ok traits line (fr fr' : frame) r :
  iter_body traits line fr = (r, fr') → frame_ok traits fr → frame_ok traits fr'.
Proof.
  intros Hrun [Hloc Hout]. destruct (decide (line = "")) as [->|Hline].
  { by injection Hrun as <- <-. }
  destruct (decide (TAB ∈ chars (rstrip line))) as [Htab|Htab].
  - destruct (split_once _ Htab) as (a & b & Hsplit & Ha & _).
    rewrite (iter_body_row _ _ _ a b) in Hrun by done.
    destruct (add_traits _ _ _ _) as [[e|[]] tte] eqn:Hadd; injection Hrun as <- <-.
    + split; [|done]. by intros ? ? [= <- <-].
    + split; [by intros ? ? [= <- <-]|]. cbn [out]. rewrite yields_snoc.
      apply Forall_app. split; [done|]. apply Forall_singleton.
      by eapply add_traits_entry_ok.
  - rewrite iter_body_tabless in Hrun by done. cbn in Hrun.
    destruct (locals fr) as [[n tv]|] eqn:Hl.
    + destruct (add_traits _ _ _ _) as [[e|[]] tte] eqn:Hadd; injection Hrun as <- <-.
      * split; [done|]. cbn [out]. by rewrite yields_snoc_Printed.
      * split; [done|]. cbn [out]. rewrite yields_snoc, yields_snoc_Printed.
        apply Forall_app. split; [done|]. apply Forall_singleton.
        eapply add_traits_entry_ok; [|done]. by eapply Hloc.
    + injection Hrun as <- <-. split; [done|]. cbn [out].
      by rewrite yields_snoc_Printed.
Qed.

(** X11: Every entry [__iter__] yields, be it for a proper row or for a line that
    was printed, has a name without a tab, has traits only under names of the
    header, and holds for each of them a float or a text that [float]
    rejects. *)
Theorem iter_entries_invariant (self : t) (e : TraitTableEntry.t) :
  e ∈ entries (__iter__ self) →
  (TAB ∉ chars (TraitTableEntry.name e))
  ∧ ∀ trait v, TraitTableEntry.traits e !! trait = Some v →
      trait ∈ traits self ∧ value_ok v.
Proof.
  intros Hin. unfold __iter__, finish, entries, iter_lines in Hin. cbn [events] in Hin.
  destruct (for_each _ _ _) as [r fr'] eqn:Hrun. cbn [snd] in Hin.
  assert (frame_ok (traits self) fr') as [_ Hall].
  { eapply (for_each_invariant _ (frame_ok (traits self))); [|
      |exact Hrun].
    - intros line s r0 s'. apply iter_body_frame_ok.
    - split; [done|]. apply Forall_nil_2. }
  by apply (proj1 (Forall_forall _ _) Hall).
Qed.

End IterMoreFacts.

(** ** More on [TraitTableManager.get_subset] *)

Section SubsetMoreFacts.
Context `{PD : Pandas}.
Import TraitTableManager.

Lemma subset_loop_keep_bounded names to_find found (src : list event) :
  found ≤ to_find →
  yields (subset_loop names false to_find found src).1
    `sublist_of` filter (λ e, TraitTableEntry.name e ∈ names) (yields src)
  ∧ length (yields (subset_loop names false to_find found src).1) + found ≤ to_find.
Proof.
  revert found. induction src as [|[line|entry] src IH]; intros found Hle.
  - simpl. split; [done|lia].
  - cbn [subset_loop]. specialize (IH found Hle).
    destruct (subset_loop _ _ _ _ src) as [o r]. cbn [fst] in *.
    by rewrite !yields_Printed.
  - cbn [subset_loop]. rewrite yields_Yielded. case_bool_decide as Hfound; cbn [negb andb].
    + cbn [fst]. split; [apply sublist_nil_l|simpl; lia].
    + case_bool_decide as Hname.
      * specialize (IH (S found)). destruct (subset_loop _ _ _ _ src) as [o r].
        cbn [fst app] in *. rewrite yields_Yielded, filter_cons_True by done.
        destruct IH as [Hsub Hlen]; [lia|]. split; [by apply sublist_skip|simpl; lia].
      * specialize (IH found Hle). destruct (subset_loop _ _ _ _ src) as [o r].
        cbn [fst app] in *. by rewrite filter_cons_False.
Qed.

(** X12: Without [remove], on any source, [get_subset] yields only entries whose
    name is listed, in source order, and never more of them than there are
    names in the list (so a name borne by two entries makes it miss a later
    entry). *)
Theorem get_subset_keep_bounded (subset_names : list string) (src : run) :
  entries (subset_of_run subset_names false src)
    `sublist_of` filter (λ e, TraitTableEntry.name e ∈ subset_names) (entries src)
  ∧ length (entries (subset_of_run subset_names false src)) ≤ length subset_names.
Proof.
  unfold entries, subset_of_run.
  pose proof (subset_loop_keep_bounded subset_names (length subset_names) 0 (events src))
    as [Hsub Hlen]; [lia|].
  destruct (subset_loop _ _ _ _ (events src)) as [o r]. cbn [fst events] in *.
  split; [done|lia].
Qed.

(** X25: Without [remove], on every table whose scan yields entries of
    pairwise distinct names, [get_subset] yields exactly the entries of the
    scan whose name is listed, in the order of the scan; it ends with an
    error only if the scan does; and when it returns before the scan is
    exhausted, every listed name has been matched by an entry it yielded. *)
Theorem get_subset_keep_exact (self : t) (subset_names : list string) :
  NoDup (TraitTableEntry.name <$> entries (__iter__ self)) →
  entries (get_subset self subset_names false) =
    filter (λ e, TraitTableEntry.name e ∈ subset_names) (entries (__iter__ self))
  ∧ (raised (__iter__ self) = None → raised (get_subset self subset_names false) = None)
  ∧ ∀ o rest,
      subset_loop subset_names false (length subset_names) 0 (events (__iter__ self)) =
        (o, Some rest) →
      events (get_subset self subset_names false) = o
      ∧ ∀ n, n ∈ subset_names → n ∈ TraitTableEntry.name <$> yields o.
Proof.
  intros Hsrc. unfold get_subset. split; [|split].
  - unfold subset_of_run, entries.
    destruct (subset_loop _ _ _ _ _) as [o r] eqn:Hrun. cbn [events].
    apply (subset_loop_keep subset_names (events (__iter__ self)) []) in Hrun as [Hy _];
      [done|apply NoDup_nil_2|by intros ? ?%elem_of_nil|done|by intros ? ?%elem_of_nil].
  - apply subset_of_run_raised.
  - intros o rest Hrun. split.
    + unfold subset_of_run. by rewrite Hrun.
    + intros n Hn.
      apply (subset_loop_keep subset_names (events (__iter__ self)) []) in Hrun as [_ Hr];
        [|apply NoDup_nil_2|by intros ? ?%elem_of_nil|done|by intros ? ?%elem_of_nil].
      apply Hr; [by eexists|done].
Qed.

Lemma subset_loop_no_yield names remove to_find found (src : list event) :
  yields src = [] → yields (subset_loop names remove to_find found src).1 = [].
Proof.
  revert found. induction src as [|[line|entry] src IH]; intros found Hsrc; [done| |done].
  cbn [subset_loop]. rewrite yields_Printed in Hsrc. specialize (IH found Hsrc).
  destruct (subset_loop _ _ _ _ src) as [o r]. cbn [fst] in *. by rewrite yields_Printed.
Qed.

(** With [remove], as long as fewer unlisted entries have gone by than
    there are names, the loop is a plain filter; the entry that follows the
    one that makes the count is yielded once more than it should. *)
Lemma subset_loop_remove_exact names to_find found (src : list event) es last :
  yields src = es ++ [last] →
  found + length (filter (λ e, TraitTableEntry.name e ∉ names) es) < to_find →
  yields (subset_loop names true to_find found src).1 = filter (λ e, TraitTableEntry.name e ∉ names) (yields src).
Proof.
  revert found es. induction src as [|[line|entry] src IH]; intros found es Hsrc Hlt.
  - by destruct es.
  - cbn [subset_loop]. rewrite yields_Printed in Hsrc |- *.
    specialize (IH found es Hsrc Hlt).
    destruct (subset_loop _ _ _ _ src) as [o r]. cbn [fst] in *. by rewrite yields_Printed.
  - cbn [subset_loop]. rewrite yields_Yielded in Hsrc |- *.
    rewrite andb_false_r.
    rewrite (bool_decide_eq_false_2 (found = to_find)) by lia. cbn [app].
    destruct es as [|e es]; cbn [app] in Hsrc; injection Hsrc as -> Hsrc.
    + pose proof (subset_loop_no_yield names true to_find) as Hno.
      case_bool_decide as Hname; cbn [negb].
      * specialize (Hno found src Hsrc). destruct (subset_loop _ _ _ _ src) as [o r].
        cbn [fst app] in *. by rewrite filter_cons_False, Hsrc by (by intros Hn; apply Hn).
      * specialize (Hno (S found) src Hsrc). destruct (subset_loop _ _ _ _ src) as [o r].
        cbn [fst app] in *. rewrite yields_Yielded, filter_cons_True, Hsrc by done.
        by rewrite Hno.
    + case_bool_decide as Hname; cbn [negb].
      * rewrite filter_cons_False in Hlt |- * by (by intros Hn; apply Hn).
        specialize (IH found es Hsrc Hlt).
        destruct (subset_loop _ _ _ _ src) as [o r]. by cbn [fst app] in *.
      * rewrite filter_cons_True in Hlt |- * by done. cbn [length] in Hlt.
        specialize (IH (S found) es Hsrc). destruct (subset_loop _ _ _ _ src) as [o r].
        cbn [fst app] in *. rewrite yields_Yielded. f_equal. apply IH. lia.
Qed.

Lemma subset_loop_remove_extra names to_find found (src : list event) es last :
  yields src = es ++ [last] →
  found ≤ to_find →
  to_find ≤ found + length (filter (λ e, TraitTableEntry.name e ∉ names) es) →
  length (filter (λ e, TraitTableEntry.name e ∉ names) (yields src))
  < length (yields (subset_loop names true to_find found src).1).
Proof.
  revert found es. induction src as [|[line|entry] src IH]; intros found es Hsrc Hle Hge.
  - by destruct es.
  - cbn [subset_loop]. rewrite yields_Printed in Hsrc |- *.
    specialize (IH found es Hsrc Hle Hge).
    destruct (subset_loop _ _ _ _ src) as [o r]. cbn [fst] in *. by rewrite yields_Printed.
  - cbn [subset_loop]. rewrite yields_Yielded in Hsrc |- *. rewrite andb_false_r.
    destruct (decide (found = to_find)) as [->|Hne].
    + rewrite (bool_decide_eq_true_2 (to_find = to_find)) by done.
      case_bool_decide as Hname; cbn [negb].
      * pose proof (subset_loop_remove_keeps_unlisted names to_find to_find src) as Hsub.
        apply sublist_length in Hsub.
        destruct (subset_loop _ _ _ _ src) as [o r]. cbn [fst app] in *.
        rewrite filter_cons_False by (by intros Hn; apply Hn).
        rewrite yields_Yielded. simpl. lia.
      * pose proof (subset_loop_remove_keeps_unlisted names to_find (S to_find) src) as Hsub.
        apply sublist_length in Hsub.
        destruct (subset_loop _ _ _ _ src) as [o r]. cbn [fst app] in *.
        rewrite filter_cons_True by done.
        rewrite !yields_Yielded. simpl. lia.
    + rewrite (bool_decide_eq_false_2 (found = to_find)) by done. cbn [app].
      destruct es as [|e es]; cbn [app] in Hsrc; injection Hsrc as -> Hsrc;
        [simpl in Hge; lia|].
      case_bool_decide as Hname; cbn [negb].
      * rewrite filter_cons_False in Hge |- * by (by intros Hn; apply Hn).
        specialize (IH found es Hsrc Hle Hge).
        destruct (subset_loop _ _ _ _ src) as [o r]. by cbn [fst app] in *.
      * rewrite filter_cons_True in Hge |- * by done. cbn [length] in Hge.
        specialize (IH (S found) es Hsrc).
        destruct (subset_loop _ _ _ _ src) as [o r]. cbn [fst app] in *.
        rewrite yields_Yielded. simpl. apply Nat.succ_lt_mono in IH; [done|lia|lia].
Qed.

(** X13: With [remove], [get_subset] yields exactly the entries whose name is not
    listed if and only if fewer such entries than there are names in the list
    come before the last entry of the source; otherwise it yields more. *)
Theorem get_subset_remove_exact_iff (subset_names : list string) (src : run)
    (es : list TraitTableEntry.t) (last : TraitTableEntry.t) :
  entries src = es ++ [last] →
  (entries (subset_of_run subset_names true src) = filter (λ e, TraitTableEntry.name e ∉ subset_names) (entries src)
   ↔ length (filter (λ e, TraitTableEntry.name e ∉ subset_names) es) < length subset_names)
  ∧ length (filter (λ e, TraitTableEntry.name e ∉ subset_names) (entries src))
    ≤ length (entries (subset_of_run subset_names true src)).
Proof.
  intros Hsrc. unfold entries, subset_of_run in *.
  pose proof (subset_loop_remove_exact subset_names (length subset_names) 0
                (events src) es last Hsrc) as Hexact.
  pose proof (subset_loop_remove_extra subset_names (length subset_names) 0
                (events src) es last Hsrc) as Hextra.
  pose proof (subset_loop_remove_keeps_unlisted subset_names (length subset_names) 0
                (events src)) as Hsub.
  destruct (subset_loop _ _ _ _ (events src)) as [o r]. cbn [fst events] in *.
  split; [|by apply sublist_length]. split.
  - intros Heq. destruct (decide (length (filter (λ e, TraitTableEntry.name e ∉ subset_names) es)
                                  < length subset_names)) as [|Hge]; [done|].
    rewrite Heq in Hextra. specialize (Hextra ltac:(lia) ltac:(lia)). lia.
  - intros Hlt. apply Hexact. lia.
Qed.

(** X14: With an empty list of names and [remove], the first entry of the source
    is yielded twice and every other entry once. *)
Theorem get_subset_remove_nothing_doubles_first (src : run) :
  entries (subset_of_run [] true src) =
    match entries src with
    | [] => []
    | e :: es => e :: e :: es
    end.
Proof.
  unfold entries, subset_of_run. cbn [length].
  assert (∀ found evs, 0 < found →
            yields (subset_loop [] true 0 found evs).1 = yields evs) as Hpast.
  { intros found evs. revert found.
    induction evs as [|[line|entry] evs IH]; intros found Hpos; [done| |].
    - cbn [subset_loop]. specialize (IH found Hpos).
      destruct (subset_loop _ _ _ _ evs) as [o r]. cbn [fst] in *.
      by rewrite !yields_Printed, IH.
    - cbn [subset_loop]. rewrite (bool_decide_eq_false_2 (found = 0)) by lia.
      rewrite bool_decide_eq_false_2 by apply not_elem_of_nil. cbn [andb].
      specialize (IH (S found)). destruct (subset_loop _ _ _ _ evs) as [o r].
      cbn [fst app] in *. rewrite !yields_Yielded, IH by lia. done. }
  induction (events src) as [|[line|entry] evs IH].
  - done.
  - cbn [subset_loop]. destruct (subset_loop _ _ _ _ evs) as [o r].
    cbn [fst events] in *. by rewrite !yields_Printed.
  - cbn [subset_loop]. rewrite (bool_decide_eq_true_2 (0 = 0)) by done.
    rewrite bool_decide_eq_false_2 by apply not_elem_of_nil. cbn [andb negb].
    clear IH. specialize (Hpast 1 evs). destruct (subset_loop [] true 0 1 evs) as [o r].
    cbn [fst app events] in *. rewrite !yields_Yielded, Hpast by lia. done.
Qed.

End SubsetMoreFacts.

(** ** More on [TraitTableManager.get_ordered_traits] *)

Section OrderMoreFacts.
Import Str TraitTableManager.

Lemma token_lt_asym a b : token_lt a b = inr true → token_lt b a = inr false.
Proof.
  destruct a as [m|c], b as [n|d]; simpl; try done.
  - intros [= Hlt%bool_decide_eq_true]. f_equal. apply bool_decide_eq_false. lia.
  - intros [= Hlt%bool_decide_eq_true]. f_equal. apply bool_decide_eq_false. lia.
Qed.

Lemma key_lt_asym a b : key_lt a b = inr true → key_lt b a = inr false.
Proof.
  revert b. induction a as [|x a IH]; intros [|y b]; simpl; try done.
  case_decide as Hxy.
  - subst. rewrite decide_True by done. apply IH.
  - rewrite decide_False by done. apply token_lt_asym.
Qed.

Lemma insert_by_key_perm {A} (x : list token * A) l r :
  insert_by_key x l = inr r → r ≡ₚ x :: l.
Proof.
  revert r. induction l as [|y l IH]; intros r; simpl.
  - by intros [= <-].
  - destruct (key_lt x.1 y.1) as [e|[]]; [done| |].
    + by intros [= <-].
    + destruct (insert_by_key x l) as [e|r'] eqn:Hins; [done|]. intros [= <-].
      rewrite (IH r' eq_refl). apply Permutation_swap.
Qed.

Lemma insert_by_key_sorted {A} (x : list token * A) l r :
  Sorted (λ a c, key_lt c.1 a.1 = inr false) l →
  insert_by_key x l = inr r →
  Sorted (λ a c, key_lt c.1 a.1 = inr false) r.
Proof.
  revert r. induction l as [|y l IH]; intros r Hsorted; simpl.
  - intros [= <-]. by repeat constructor.
  - destruct (key_lt x.1 y.1) as [e|[]] eqn:Hlt; [done| |].
    + intros [= <-]. constructor; [done|]. constructor. by apply key_lt_asym.
    + destruct (insert_by_key x l) as [e|r'] eqn:Hins; [done|]. intros [= <-].
      apply Sorted_inv in Hsorted as [Hl Hhd]. constructor; [by apply IH|].
      destruct l as [|z l]; simpl in Hins.
      * injection Hins as <-. by constructor.
      * destruct (key_lt x.1 z.1) as [e|[]]; [done| |].
        -- injection Hins as <-. by constructor.
        -- destruct (insert_by_key x l); [done|]. injection Hins as <-.
           constructor. by apply HdRel_inv in Hhd.
Qed.

Lemma sorted_fold {A} (key : A → list token) (l : list A) s r :
  Sorted (λ a c, key_lt c.1 a.1 = inr false) s →
  Forall (λ p, p.1 = key p.2) s →
  foldl (λ acc x, match acc with
                  | inl e => inl e
                  | inr s => insert_by_key (key x, x) s
                  end) (inr s) l = inr r →
  r.*2 ≡ₚ s.*2 ++ l
  ∧ Sorted (λ a c, key_lt c.1 a.1 = inr false) r
  ∧ Forall (λ p, p.1 = key p.2) r.
Proof.
  revert s. induction l as [|x l IH]; intros s Hsorted Hkeys; cbn [foldl].
  - intros [= <-]. by rewrite app_nil_r.
  - destruct (insert_by_key (key x, x) s) as [e|s'] eqn:Hins.
    + intros Hrun. exfalso. clear -Hrun. induction l as [|y l IHl]; [done|]. by apply IHl.
    + intros Hrun. pose proof (insert_by_key_perm _ _ _ Hins) as Hperm.
      apply IH in Hrun as (Hp & Hs & Hk).
      * split; [|done]. rewrite Hp, Hperm. rewrite fmap_cons. cbn [snd].
        by rewrite <- Permutation_middle.
      * by eapply insert_by_key_sorted.
      * rewrite Hperm. by constructor.
Qed.

Lemma Sorted_lookup {A} (R : A → A → Prop) l i a c :
  Sorted R l → l !! i = Some a → l !! S i = Some c → R a c.
Proof.
  intros Hsorted. revert i. induction Hsorted as [|x l Hl IH Hhd]; intros i Ha Hc; [done|].
  destruct i as [|i].
  - simpl in Ha, Hc. injection Ha as <-. destruct l as [|y l]; [done|].
    simpl in Hc. injection Hc as <-. by apply HdRel_inv in Hhd.
  - by apply (IH i).
Qed.

Lemma Sorted_fmap_snd {A} (key : A → list token) (r : list (list token * A)) :
  Forall (λ p, p.1 = key p.2) r →
  Sorted (λ a c, key_lt c.1 a.1 = inr false) r →
  Sorted (λ a c, key_lt (key c) (key a) = inr false) (r.*2).
Proof.
  intros Hkeys Hsorted. induction Hsorted as [|p r Hr IH Hhd]; [constructor|].
  apply Forall_cons in Hkeys as [Hp Hkeys]. rewrite fmap_cons.
  constructor; [by apply IH|]. destruct r as [|q r]; [constructor|].
  apply Forall_cons in Hkeys as [Hq _]. apply HdRel_inv in Hhd.
  rewrite fmap_cons. constructor. by rewrite <- Hp, <- Hq.
Qed.

(** X15: Whenever [get_ordered_traits] returns, the result holds the same trait
    names as the header, each as many times, and no name in it comes before
    its predecessor by the key. *)
Theorem get_ordered_traits_sorted_permutation (self : t) (metadata_last : bool)
    (r : list string) :
  get_ordered_traits self metadata_last = inr r →
  r ≡ₚ traits self
  ∧ ∀ i a c, r !! i = Some a → r !! S i = Some c →
      not_before (nat_sort metadata_last) a c.
Proof.
  unfold get_ordered_traits, sorted. intros Hrun.
  destruct (foldl _ _ _) as [e|s] eqn:Hfold; [done|]. injection Hrun as <-.
  apply sorted_fold in Hfold as (Hperm & Hsorted & Hkeys); [|constructor|constructor].
  split; [done|]. intros i a c Ha Hc.
  by eapply (Sorted_lookup _ _ i a c (Sorted_fmap_snd _ _ Hkeys Hsorted)).
Qed.

Lemma key_lt_chr a b :
  Forall is_chr a → Forall is_chr b → ∃ r, key_lt a b = inr r.
Proof.
  intros Ha. revert b. induction Ha as [|x a Hx Ha IH]; intros b Hb.
  - destruct b; simpl; eauto.
  - destruct Hb as [|y b Hy Hb]; simpl; [eauto|].
    case_decide; [by apply IH|].
    destruct x, y; simpl in *; try done. eauto.
Qed.

Lemma nat_sort_digit_free metadata_last s :
  digit_free s → Forall is_chr (nat_sort metadata_last s).
Proof.
  intros Hfree. unfold nat_sort.
  assert (∀ u, digit_free u → Forall is_chr (convert <$> chars u)) as Hconv.
  { intros u Hu. apply Forall_fmap. eapply Forall_impl; [exact Hu|].
    intros c Hc. simpl. unfold convert. by rewrite Hc. }
  destruct (metadata_last && startswith "metadata" s); [|by apply Hconv].
  apply Hconv. unfold digit_free. simpl. repeat constructor.
Qed.

Lemma insert_by_key_chr {A} (x : list token * A) l :
  Forall is_chr x.1 → Forall (λ p, Forall is_chr p.1) l →
  ∃ r, insert_by_key x l = inr r.
Proof.
  intros Hx Hl. induction Hl as [|y l Hy Hl IH]; simpl; [eauto|].
  destruct (key_lt_chr x.1 y.1 Hx Hy) as [[] ->]; [eauto|].
  destruct IH as [r ->]. eauto.
Qed.

(** X16: When no trait name holds a decimal digit, [get_ordered_traits] returns:
    no comparison can raise [TypeError]. *)
Theorem get_ordered_traits_digit_free (self : t) (metadata_last : bool) :
  Forall digit_free (traits self) →
  ∃ r, get_ordered_traits self metadata_last = inr r.
Proof.
  intros Hfree. unfold get_ordered_traits, sorted.
  assert (∀ s, Forall (λ p : list token * string, Forall is_chr p.1) s →
            ∃ s', foldl (λ acc x, match acc with
                                  | inl e => inl e
                                  | inr s => insert_by_key (nat_sort metadata_last x, x) s
                                  end) (inr s) (traits self) = inr s') as Hfold.
  { induction Hfree as [|x l Hx Hl IH]; intros s Hs; cbn [foldl]; [eauto|].
    destruct (insert_by_key_chr (nat_sort metadata_last x, x) s) as [s1 Hins];
      [by apply nat_sort_digit_free|done|].
    rewrite Hins. apply IH. rewrite (insert_by_key_perm _ _ _ Hins).
    constructor; [|done]. by apply nat_sort_digit_free. }
  destruct (Hfold []) as [s' ->]; [constructor|]. eauto.
Qed.

Lemma key_lt_mixed (p : list token) n c a b :
  key_lt (p ++ TChr c :: a) (p ++ TInt n :: b) = inl TypeError
  ∧ key_lt (p ++ TInt n :: b) (p ++ TChr c :: a) = inl TypeError.
Proof.
  induction p as [|x p IH]; simpl.
  - done.
  - by rewrite !decide_True.
Qed.

(** X17: Two trait names that agree up to a position where one has a decimal digit
    and the other a character that is not one cannot be ordered: with these
    two names in the header, in either order, [get_ordered_traits] raises
    [TypeError]. *)
Theorem get_ordered_traits_type_error (trait_table_f entry_header prefix r1 r2 : string)
    (d c : ascii) (n : N) :
  digit d = Some n → digit c = None →
  let x := prefix +:+ String d r1 in
  let y := prefix +:+ String c r2 in
  get_ordered_traits
    {| trait_table_f := trait_table_f; entry_header := entry_header; traits := [x; y] |}
    false = inl TypeError
  ∧ get_ordered_traits
      {| trait_table_f := trait_table_f; entry_header := entry_header; traits := [y; x] |}
      false = inl TypeError.
Proof.
  intros Hd Hc x y. unfold get_ordered_traits, sorted, nat_sort. cbn [traits foldl andb].
  cbn [insert_by_key fst]. unfold x, y. rewrite !chars_app. cbn [chars].
  assert (convert d = TInt n) as Hcd by (unfold convert; by rewrite Hd).
  assert (convert c = TChr c) as Hcc by (unfold convert; by rewrite Hc).
  rewrite !fmap_app, !fmap_cons, Hcd, Hcc.
  destruct (key_lt_mixed (convert <$> chars prefix) n c (convert <$> chars r2)
              (convert <$> chars r1)) as [-> ->].
  done.
Qed.

End OrderMoreFacts.

(** ** More on [TraitTableEntry.correlation] *)

Section CorrelationMoreFacts.
Context `{PD : Pandas}.
Import TraitTableEntry.

Lemma pandas_dict_default_lookup (self other : t) trait :
  pandas_dict self other None !! trait = shared_pair self other trait.
Proof.
  unfold pandas_dict. rewrite shared_fold_lookup, lookup_empty. cbn [candidates].
  case_decide as Hin; [by destruct (shared_pair self other trait)|].
  unfold shared_pair. destruct (traits self !! trait) eqn:Hs; [|done].
  exfalso. apply Hin, keys_spec. by eexists.
Qed.

(** X18: Without [traits], the data handed to pandas is the same from either
    side: the traits paired are those both entries have, whichever entry the
    method is called on, with the two values swapped; so the call fails at
    the no-shared-traits check from one side exactly when it does from the
    other. *)
Theorem correlation_default_symmetric (self other : t) :
  (∀ trait, pandas_dict other self None !! trait =
              (λ p, (p.2, p.1)) <$> pandas_dict self other None !! trait)
  ∧ dom (pandas_dict self other None) = dom (traits self) ∩ dom (traits other)
  ∧ (pandas_dict self other None = ∅ ↔ pandas_dict other self None = ∅).
Proof.
  assert (∀ trait, pandas_dict other self None !! trait =
                     (λ p, (p.2, p.1)) <$> pandas_dict self other None !! trait) as Hswap.
  { intros trait. rewrite !pandas_dict_default_lookup. unfold shared_pair.
    by destruct (traits self !! trait), (traits other !! trait). }
  split; [done|]. split.
  - apply set_eq. intros trait. rewrite elem_of_intersection, !elem_of_dom.
    rewrite pandas_dict_default_lookup. unfold shared_pair.
    destruct (traits self !! trait), (traits other !! trait); simpl;
      split; try intros [? ?]; try done; by intros [? ?]%is_Some_None.
  - split; intros Hempty; apply map_eq; intros trait; rewrite lookup_empty.
    + by rewrite Hswap, Hempty, lookup_empty.
    + pose proof (Hswap trait) as Ht. rewrite Hempty, lookup_empty in Ht.
      by destruct (pandas_dict self other None !! trait).
Qed.

End CorrelationMoreFacts.

(** ** More on [TraitTableManager.write_entry] *)

Section WriteMoreFacts.
Context `{PD : Pandas}.
Import Str TraitTableManager.

Lemma write_entry_log (e : TraitTableEntry.t) fh order :
  (write_entry e fh order).2 =
    missing_msg e <$> filter (λ trait, TraitTableEntry.traits e !! trait = None) order.
Proof.
  unfold write_entry. cbn [snd]. induction order as [|trait order IH]; [done|].
  change (mjoin ((λ trait, (field e trait).2) <$> trait :: order))
    with ((field e trait).2 ++ mjoin ((λ trait, (field e trait).2) <$> order)).
  rewrite IH. unfold field.
  destruct (TraitTableEntry.traits e !! trait) eqn:Hl.
  - by rewrite filter_cons_False by (by rewrite Hl).
  - by rewrite filter_cons_True by done.
Qed.

(** X19: [write_entry] logs one warning for each requested trait the entry lacks,
    in the order of the request, and no other; when the name and the written
    values hold no tab, the row it appends to the sink splits into the name
    followed by one field for each requested trait, [NA] standing for the
    traits the entry lacks. *)
Theorem write_entry_fields_and_warnings (e : TraitTableEntry.t) (fh : string)
    (order : list string) :
  TAB ∉ chars (TraitTableEntry.name e) →
  (∀ trait v, trait ∈ order → TraitTableEntry.traits e !! trait = Some v →
     TAB ∉ chars (TraitTableEntry.str_value v)) →
  (write_entry e fh order).2 =
    missing_msg e <$> filter (λ trait, TraitTableEntry.traits e !! trait = None) order
  ∧ ∃ content,
      (write_entry e fh order).1 = fh +:+ content +:+ String NL ""
      ∧ split TAB None content =
          TraitTableEntry.name e ::
          ((λ trait, match TraitTableEntry.traits e !! trait with
                     | Some v => TraitTableEntry.str_value v
                     | None => "NA"
                     end) <$> order).
Proof.
  intros Hname Hvals. split; [apply write_entry_log|].
  eexists. split; [reflexivity|].
  rewrite split_join_sep; [|done|].
  - f_equal. apply list_fmap_ext. intros _ trait _. apply field_text.
  - constructor; [done|]. apply Forall_fmap, Forall_forall. intros trait Hin. simpl.
    rewrite field_text. destruct (TraitTableEntry.traits e !! trait) eqn:Hl.
    + by eapply Hvals.
    + simpl. rewrite !not_elem_of_cons. repeat split; try done. apply not_elem_of_nil.
Qed.

End WriteMoreFacts.

(** ** Writing a table and reading it back *)

Section TableRoundTrip.
Context `{PD : Pandas}.
Import Str TraitTableManager.

Lemma readlines_lines ls rest :
  Forall (λ l, ∃ c, l = c +:+ String NL "" ∧ NL ∉ chars c) ls →
  readlines (String.concat "" ls +:+ rest) = ls ++ readlines rest.
Proof.
  induction ls as [|l ls IH]; intros Hall; [done|].
  apply Forall_cons in Hall as [(c & -> & Hc) Hall].
  rewrite concat_cons, !string_app_assoc.
  change (String NL "" +:+ (String.concat "" ls +:+ rest))
    with (String NL (String.concat "" ls +:+ rest)).
  rewrite readlines_first_line by done. by rewrite IH.
Qed.

Lemma write_entries_concat (es : list TraitTableEntry.t) fh order :
  write_entries es fh order = fh +:+ String.concat "" ((λ e, row e order) <$> es).
Proof.
  unfold write_entries. revert fh. induction es as [|e es IH]; intros fh.
  - simpl. by rewrite string_app_nil_r.
  - cbn [foldl]. rewrite IH. unfold write_entry. cbn [fst].
    by rewrite fmap_cons, concat_cons, string_app_assoc.
Qed.

Lemma list_to_map_zip_fmap {A} (g : string → A) (l : list string) trait :
  (list_to_map (zip l (g <$> l)) : gmap string A) !! trait =
    if decide (trait ∈ l) then Some (g trait) else None.
Proof.
  induction l as [|x l IH]; [done|]. rewrite fmap_cons. cbn [zip_with list_to_map foldr].
  fold (list_to_map (M := gmap string A) (zip l (g <$> l))).
  destruct (decide (x = trait)) as [->|Hne].
  - rewrite lookup_insert_eq. by rewrite decide_True by (by left).
  - rewrite lookup_insert_ne by done. rewrite IH.
    destruct (decide (trait ∈ l)).
    + by rewrite decide_True by (by right).
    + by rewrite decide_False by (by intros [?|?]%elem_of_cons).
Qed.

(** The row written for a writable entry is a data line that stands for
    this very entry. *)
Lemma row_reads_back order (e : TraitTableEntry.t) :
  order ≠ [] → writable order e →
  line_ok order (row e order)
  ∧ line_entry order (row e order) = e
  ∧ ∃ c, row e order = c +:+ String NL "" ∧ (NL ∉ chars c) ∧ (TextFile.CR ∉ chars c).
Proof.
  intros Hne (Hname & Hdom & Hvals & Hlast).
  set (raw := λ trait, (field e trait).1).
  set (fields := raw <$> order).
  assert (∀ trait, trait ∈ order → ∃ v, TraitTableEntry.traits e !! trait = Some v
            ∧ raw trait = TraitTableEntry.str_value v) as Hraw.
  { intros trait Hin. apply Hdom in Hin as [v Hv]. exists v. split; [done|].
    unfold raw. by rewrite field_text, Hv. }
  assert (Forall (λ f, clean f = true) fields) as Hclean.
  { apply Forall_fmap, Forall_forall. intros trait Hin. simpl.
    destruct (Hraw trait Hin) as (v & Hv & ->). by apply (Hvals trait v). }
  assert (fields ≠ []) as Hfields by (unfold fields; by destruct order).
  assert (Forall (λ f, TAB ∉ chars f) fields) as Htabs.
  { eapply Forall_impl; [exact Hclean|]. intros f Hf.
    by apply clean_spec in Hf as (? & ? & ?). }
  assert (Forall (λ f, NL ∉ chars f) fields) as Hnls.
  { eapply Forall_impl; [exact Hclean|]. intros f Hf.
    by apply clean_spec in Hf as (? & ? & ?). }
  assert (Forall (λ f, TextFile.CR ∉ chars f) fields) as Hcrs.
  { eapply Forall_impl; [exact Hclean|]. intros f Hf.
    by apply clean_spec in Hf as (? & ? & ?). }
  apply clean_spec in Hname as (Hname_tab & Hname_nl & Hname_cr).
  set (content := TraitTableEntry.name e +:+ String TAB (join TAB fields)).
  assert (row e order = content +:+ String NL "") as Hrow.
  { unfold row, content. fold raw. fold fields. destruct fields; [done|]. done. }
  assert (NL ∉ chars content) as Hnl.
  { unfold content. rewrite chars_app. cbn [chars].
    rewrite elem_of_app, elem_of_cons. intros [?|[?|?]]; [done|done|].
    by apply (chars_join_no NL fields). }
  assert (TextFile.CR ∉ chars content) as Hcr.
  { unfold content. rewrite chars_app. cbn [chars].
    rewrite elem_of_app, elem_of_cons. intros [?|[?|?]]; [done|done|].
    by apply (chars_join_no TextFile.CR fields). }
  assert (ends_solid (join TAB fields) = true) as Hj.
  { apply ends_solid_join; [|done]. intros f Hf. unfold fields in Hf.
    rewrite fmap_last in Hf. destruct (last order) as [trait|] eqn:Hl; [|done].
    simpl in Hf. injection Hf as <-.
    destruct (Hraw trait) as (v & Hv & ->); [by eapply last_Some_elem_of|].
    by apply (Hlast trait v). }
  assert (split TAB (Some 1) (rstrip (row e order))
          = [TraitTableEntry.name e; join TAB fields]) as Hsplit.
  { rewrite Hrow, rstrip_app_space by done. rewrite rstrip_solid.
    - unfold content. rewrite split_first by done. by rewrite split_zero.
    - unfold content. apply ends_solid_app. rewrite ends_solid_cons; [done|].
      by apply ends_solid_nonempty. }
  split; [|split; [|by exists content]].
  - exists (TraitTableEntry.name e), (join TAB fields). split; [done|].
    rewrite split_join by done. unfold fields. by rewrite length_fmap.
  - unfold line_entry. rewrite Hsplit, split_join by done.
    unfold row_entry. destruct e as [n m]. cbn [TraitTableEntry.name] in *. f_equal.
    apply map_eq. intros trait. unfold fields.
    rewrite <- list_fmap_compose, list_to_map_zip_fmap. cbn [TraitTableEntry.traits] in *.
    case_decide as Hin.
    + destruct (Hraw trait Hin) as (v & Hv & Hr). rewrite Hv. simpl. rewrite Hr.
      f_equal. by apply (Hvals trait v).
    + destruct (m !! trait) eqn:Hm; [|done]. exfalso. apply Hin, Hdom. by eexists.
Qed.

(** The text of a table, translations of text mode apart. *)
Lemma table_reads_back (entry_header : string) (order : list string)
    (es : list TraitTableEntry.t) :
  order ≠ [] → NoDup order →
  clean entry_header = true →
  Forall (λ trait, clean trait = true) order →
  (∀ trait, last order = Some trait → ends_solid trait = true) →
  Forall (writable order) es →
  let self := __init__ (write_entries es (header_line entry_header order) order) in
  traits self = order
  ∧ TraitTableManager.entry_header self = replace HASH "" entry_header
  ∧ __iter__ self = run_of es.
Proof.
  intros Hne Hnd Hhead Horder Hlast Hes self.
  set (hcontent := join TAB (entry_header :: order)).
  assert (Forall (λ f, clean f = true) (entry_header :: order)) as Hclean by by constructor.
  assert (NL ∉ chars hcontent) as Hnl.
  { apply chars_join_no; [done|]. eapply Forall_impl; [exact Hclean|].
    intros f Hf. by apply clean_spec in Hf as (? & ? & ?). }
  assert (Forall (λ f, TAB ∉ chars f) (entry_header :: order)) as Htabs.
  { eapply Forall_impl; [exact Hclean|]. intros f Hf.
    by apply clean_spec in Hf as (? & ? & ?). }
  assert (ends_solid hcontent = true) as Hsolid.
  { apply ends_solid_join; [|done]. intros f Hf. apply Hlast.
    destruct order as [|x order]; [done|]. exact Hf. }
  set (rows := (λ e, row e order) <$> es).
  assert (Forall (λ l, ∃ c, l = c +:+ String NL "" ∧ NL ∉ chars c) rows) as Hrows.
  { apply Forall_fmap. eapply Forall_impl; [exact Hes|]. intros e He. simpl.
    destruct (row_reads_back order e Hne He) as (_ & _ & c & ? & ? & _). by exists c. }
  assert (readlines (trait_table_f self) = (hcontent +:+ String NL "") :: rows) as Hlines.
  { unfold self, __init__. cbn [trait_table_f]. rewrite write_entries_concat.
    unfold header_line. fold hcontent. fold rows. rewrite string_app_assoc.
    change (String NL "" +:+ String.concat "" rows) with (String NL (String.concat "" rows)).
    rewrite readlines_first_line by done. f_equal.
    rewrite <- (string_app_nil_r (String.concat "" rows)).
    rewrite readlines_lines by done. cbn [readlines]. by rewrite app_nil_r. }
  assert (traits self = order ∧ TraitTableManager.entry_header self = replace HASH "" entry_header)
    as [Htraits Hheader].
  { unfold self, __init__ at 1 2. cbn [traits TraitTableManager.entry_header].
    unfold readline. fold self. change (trait_table_f self) with
      (write_entries es (header_line entry_header order) order) in Hlines.
    rewrite Hlines. cbn [hd]. rewrite rstrip_app_space by done.
    rewrite rstrip_solid by done. unfold hcontent. by rewrite split_join. }
  split; [done|]. split; [done|].
  unfold __iter__. rewrite Hlines, Htraits. cbn [tail].
  destruct (iter_lines_ok order rows {| locals := None; out := [] |} Hnd) as (locals' & ->).
  { apply Forall_fmap. eapply Forall_impl; [exact Hes|]. intros e He. simpl.
    by destruct (row_reads_back order e Hne He) as (? & _ & _). }
  unfold finish, run_of. cbn. f_equal. f_equal. unfold rows.
  assert (∀ l, Forall (writable order) l →
            line_entry order <$> ((λ e, row e order) <$> l) = l) as Hback.
  { intros l Hl. induction Hl as [|e l He Hl IH]; [done|]. rewrite !fmap_cons.
    f_equal; [|done]. by destruct (row_reads_back order e Hne He) as (_ & ? & _). }
  by apply Hback.
Qed.

Lemma table_text_no_cr (entry_header : string) (order : list string)
    (es : list TraitTableEntry.t) :
  order ≠ [] →
  clean entry_header = true →
  Forall (λ trait, clean trait = true) order →
  Forall (writable order) es →
  TextFile.CR ∉ chars (write_entries es (header_line entry_header order) order).
Proof.
  intros Hne Hhead Horder Hes. rewrite write_entries_concat. unfold header_line.
  rewrite !chars_app. cbn [chars]. rewrite !elem_of_app, elem_of_cons, elem_of_nil.
  intros [[Hin|[?|[]]]|Hin]; [|done|].
  - revert Hin. apply chars_join_no; [done|]. constructor.
    + by apply clean_spec in Hhead as (? & ? & ?).
    + eapply Forall_impl; [exact Horder|]. intros f Hf.
      by apply clean_spec in Hf as (? & ? & ?).
  - revert Hin. apply chars_concat_no, Forall_fmap.
    eapply Forall_impl; [exact Hes|]. intros e He. unfold compose.
    destruct (row_reads_back order e Hne He) as (_ & _ & c & -> & _ & Hc).
    rewrite chars_app. cbn [chars]. rewrite elem_of_app, elem_of_cons, elem_of_nil.
    intros [?|[?|[]]]; done.
Qed.

(** X20: A table written to a text file as a header line followed by one
    [write_entry] row for each entry is read back from that file as it was,
    whatever the line separator of the platform: [__init__] finds the trait
    names (and the entry header without its markers), and [__iter__] yields
    the entries written, in order, without error and without printing.
    Names and written values hold no tab, line feed or carriage return: the
    row of an entry with a carriage return inside its name is read as two
    lines, the first without a tab, and the scan ends with
    [UnboundLocalError]. *)
Theorem table_round_trip (crlf : bool) (entry_header : string) (order : list string)
    (es : list TraitTableEntry.t) :
  order ≠ [] → NoDup order →
  clean entry_header = true →
  Forall (λ trait, clean trait = true) order →
  (∀ trait, last order = Some trait → ends_solid trait = true) →
  Forall (writable order) es →
  let self := __init__ (TextFile.reread crlf
                          (write_entries es (header_line entry_header order) order)) in
  let broken :=
    {| TraitTableEntry.name := with_return "a" "b";
       TraitTableEntry.traits := {[ "t1" := Text "v" ]} |} in
  traits self = order
  ∧ TraitTableManager.entry_header self = replace HASH "" entry_header
  ∧ __iter__ self = run_of es
  ∧ __iter__ (__init__ (TextFile.reread crlf
                          (write_entries [broken] (header_line "#OTU" ["t1"]) ["t1"]))) =
      {| events := [Printed (table_line ["a"])];
         raised := Some (UnboundLocalError "name") |}.
Proof.
  intros Hne Hnd Hhead Horder Hlast Hes.
  rewrite reread_id by by apply table_text_no_cr.
  intros self broken.
  destruct (table_reads_back entry_header order es) as (Htraits & Hheader & Hiter);
    [done..|].
  split; [exact Htraits|]. split; [exact Hheader|]. split; [exact Hiter|].
  by destruct crlf.
Qed.

End TableRoundTrip.

(** ** [PicrustExecuter] *)

Section ExecuterFacts.
Import PicrustExecuter.
Context `{OS : Os}.

Lemma str_int_inj (m n : N) : str_int m = str_int n → m = n.
Proof.
  unfold str_int. intros Heq.
  assert (Some (N.to_uint m) = Some (N.to_uint n)) as Huint.
  { by rewrite <- !NilEmpty.usu, Heq. }
  injection Huint as Huint.
  by rewrite <- (DecimalN.Unsigned.of_to m), <- (DecimalN.Unsigned.of_to n), Huint.
Qed.

Lemma job_name_of_inj (m n : N) : job_name_of m = job_name_of n → m = n.
Proof. unfold job_name_of. simpl. intros [= Heq]. by apply str_int_inj. Qed.

Ltac run_method :=
  unfold predict_traits_wf, predict_metagenome, _get_format_command, _get_asr_command,
    _get_predict_traits_command, _get_normalize_command, _get_predict_metagenome_command,
    ensure_dir, check_which, subprocess_call, mbind, state_exn_bind, mret, state_exn_ret,
    get, put, raise in *;
  cbn [fst snd] in *;
  repeat (match goal with
          | H : context [match ?x with _ => _ end] |- _ =>
              lazymatch x with
              | context [match _ with _ => _ end] => fail
              | _ => destruct x eqn:?
              end
          | H : context [if ?x then _ else _] |- _ =>
              lazymatch x with
              | context [if _ then _ else _] => fail
              | _ => destruct x eqn:?
              end
          end; cbn [fst snd] in *; simplify_eq).

Lemma predict_traits_wf_account (tree trait_table type : string)
    (base_dir : option string) (w w' : world) (r : exn + string * string) :
  predict_traits_wf tree trait_table type base_dir w = (r, w') →
  match r with
  | inr (job_name, predict_out) =>
      job_id w' = (job_id w + 1)%N
      ∧ job_name = job_name_of (job_id w)
      ∧ (type = "trait" ∨ type = "marker")
      ∧ base_path base_dir ∈ dirs w'
      ∧ ∃ super_command,
          calls w' = calls w ++ [bsub_argv (base_path base_dir) job_name super_command]
  | inl e =>
      job_id w' = job_id w
      ∧ (calls w' = calls w
         ∨ ∃ argv, calls w' = calls w ++ [argv] ∧ call argv = Some e)
  end.
Proof.
  intros Hrun. run_method; cbn;
    repeat split; eauto; try (apply elem_of_union_l; by apply elem_of_singleton_2).
Qed.

(** X21: How [predict_traits_wf] accounts for jobs: when it returns, exactly one
    command has been handed to [subprocess.call], the [bsub] line that names
    the job after the counter, and the counter has gone up by one; when it
    raises, the counter is as it was, and a command has been handed over only
    if it is [subprocess.call] itself that raised. *)
Theorem predict_traits_wf_accounting (tree trait_table type : string)
    (base_dir : option string) (w w' : world) (r : exn + string * string) :
  predict_traits_wf tree trait_table type base_dir w = (r, w') →
  match r with
  | inr (job_name, predict_out) =>
      job_id w' = (job_id w + 1)%N
      ∧ job_name = job_name_of (job_id w)
      ∧ (type = "trait" ∨ type = "marker")
      ∧ base_path base_dir ∈ dirs w'
      ∧ ∃ super_command,
          calls w' = calls w ++ [bsub_argv (base_path base_dir) job_name super_command]
  | inl e =>
      job_id w' = job_id w
      ∧ (calls w' = calls w
         ∨ ∃ argv, calls w' = calls w ++ [argv] ∧ call argv = Some e)
  end.
Proof. apply predict_traits_wf_account. Qed.

(** X22: A [type] other than [trait] and [marker] is rejected only after the
    base directory has been made: the call raises, no job is submitted and
    the counter is untouched, but when the directory was missing and
    [os.mkdir] did not fail it now exists. *)
Theorem predict_traits_wf_rejected_type (tree trait_table type : string)
    (base_dir : option string) (w : world) :
  type ≠ "trait" → type ≠ "marker" →
  ∃ e w',
    predict_traits_wf tree trait_table type base_dir w = (inl e, w')
    ∧ job_id w' = job_id w ∧ calls w' = calls w
    ∧ (base_path base_dir ∈ dirs w ∨ mkdir (dirs w) (base_path base_dir) = None →
       e = ValueError type_msg ∧ dirs w' = {[base_path base_dir]} ∪ dirs w).
Proof.
  intros Htrait Hmarker.
  destruct (predict_traits_wf tree trait_table type base_dir w) as [r w'] eqn:Hrun.
  run_method; eexists _, _; (split; [reflexivity|]); cbn;
    (split; [done|]); (split; [done|]);
    intros [?|?]; try done; (split; [done|]); try done;
    apply set_eq; intros x; rewrite elem_of_union, elem_of_singleton;
    (split; [by right|by intros [->|?]]).
Qed.

(** X23: Two calls of [predict_traits_wf] that both return, one after the
    other, give two different job names. *)
Theorem predict_traits_wf_fresh_names
    (tree1 table1 type1 tree2 table2 type2 : string) (dir1 dir2 : option string)
    (w w1 w2 : world) (x y : string * string) :
  predict_traits_wf tree1 table1 type1 dir1 w = (inr x, w1) →
  predict_traits_wf tree2 table2 type2 dir2 w1 = (inr y, w2) →
  x.1 ≠ y.1 ∧ job_id w2 = (job_id w + 2)%N.
Proof.
  intros H1 H2.
  apply predict_traits_wf_account in H1. apply predict_traits_wf_account in H2.
  destruct x as [n1 o1], y as [n2 o2]. cbn [fst].
  destruct H1 as (Hid1 & -> & _), H2 as (Hid2 & -> & _). split; [|lia].
  intros Heq%job_name_of_inj. lia.
Qed.

Lemma predict_metagenome_account (otu_table copy_numbers trait_table : string)
    (base_dir : option string) (w w' : world) (inst inst' : option N)
    (r : exn + string * string) :
  predict_metagenome otu_table copy_numbers trait_table base_dir (w, inst) = (r, (w', inst')) →
  job_id w' = job_id w
  ∧ match r with
    | inr (job_name, predict_out) =>
        job_name = job_name_of (default (job_id w) inst)
        ∧ inst' = Some (default (job_id w) inst + 1)%N
        ∧ ∃ super_command,
            calls w' = calls w ++ [bsub_argv (base_path base_dir) job_name super_command]
    | inl e => inst' = inst
    end.
Proof.
  intros Hrun. run_method; cbn; repeat split; eauto.
Qed.

(** X24: [predict_metagenome], called on an instance, names its job after the
    counter it reads but leaves the counter of the class as it was: what it
    increments is an attribute of the instance.  So a call of
    [predict_traits_wf] that follows the first [predict_metagenome] of an
    instance submits a job of the same name. *)
Theorem predict_metagenome_name_reused
    (otu_table copy_numbers table1 tree table2 type : string) (dir1 dir2 : option string)
    (w w1 w2 : world) (inst1 : option N) (x y : string * string) :
  predict_metagenome otu_table copy_numbers table1 dir1 (w, None) = (inr x, (w1, inst1)) →
  predict_traits_wf tree table2 type dir2 w1 = (inr y, w2) →
  job_id w1 = job_id w
  ∧ inst1 = Some (job_id w + 1)%N
  ∧ y.1 = x.1.
Proof.
  intros H1 H2. apply predict_metagenome_account in H1 as (Hid & H1).
  apply predict_traits_wf_account in H2.
  destruct x as [n1 o1], y as [n2 o2]. cbn [fst default] in *.
  destruct H1 as (-> & -> & _), H2 as (_ & -> & _). by rewrite Hid.
Qed.

End ExecuterFacts.

(** ** Closed instances of the further properties *)

Section MoreClosed.
#[local] Existing Instance dec_builtins.
#[local] Existing Instance no_pandas.
#[local] Existing Instance PicrustExecuter.plain_os.
Import Str Picrust TraitTableManager.

Lemma in_levels_2 : (2 ∈ [1; 2; 3])%Z.
Proof. apply list_elem_of_further, list_elem_of_here. Defined.

Lemma get_ko_by_function_groups_witness :
  ∃ data,
    get_ko_by_function ko_sample 2 = inr data
    ∧ ∀ key,
        data !! key =
          match ko_names_for (Z.to_nat 2) key (tail (readlines ko_sample) ≫= ko_pairs) with
          | [] => None
          | names => Some names
          end.
Proof. exact (get_ko_by_function_groups ko_sample 2 in_levels_2). Defined.

Lemma get_ko_by_function_key_levels_witness :
  let data : gmap string (list string) :=
    <["A;B" := ["K1"; "K2"]]> (<["A;D" := ["K1"]]> ∅) in
  get_ko_by_function ko_sample 2 = inr data
  ∧ data !! "A;B" = Some ["K1"; "K2"]
  ∧ ["K1"; "K2"] ≠ []
  ∧ 1 ≤ length (split SEMI None "A;B") ≤ Z.to_nat 2
  ∧ Z.to_nat 2 ≤ 3.
Proof.
  intros data.
  assert (get_ko_by_function ko_sample 2 = inr data) as Hrun by reflexivity.
  assert (data !! "A;B" = Some ["K1"; "K2"]) as Hkey by reflexivity.
  split; [exact Hrun|]. split; [exact Hkey|].
  exact (get_ko_by_function_key_levels ko_sample 2 data "A;B" ["K1"; "K2"] Hrun Hkey).
Defined.

Lemma get_ko_by_function_files_all_witness :
  ∃ data names,
    get_ko_by_function ko_sample 2 = inr data
    ∧ data !! ko_key (Z.to_nat 2) "A;B" = Some names
    ∧ "K2" ∈ names
    ∧ (count SEMI "A;B" < Z.to_nat 2 → ko_key (Z.to_nat 2) "A;B" = "A;B").
Proof.
  refine (get_ko_by_function_files_all ko_sample 2 (table_line ["K2"; "A;B"]) "K2" "A;B"
            in_levels_2 _ _).
  - apply list_elem_of_further, list_elem_of_here.
  - apply list_elem_of_here.
Defined.

Lemma plant_sample_ok : Forall plant_record_ok plant_sample.
Proof.
  repeat constructor; try discriminate;
    apply (bool_decide_unpack _); reflexivity.
Defined.

Lemma header_no_newline : NL ∉ chars "lineage".
Proof. apply (bool_decide_unpack _). reflexivity. Defined.

Lemma plant_sample_portable : Forall plant_record_portable plant_sample.
Proof.
  repeat constructor; try discriminate;
    apply (bool_decide_unpack _); reflexivity.
Defined.

Lemma get_plant_associated_kos_round_trip_witness :
  (NL ∉ chars "lineage") ∧ (TextFile.CR ∉ chars "lineage")
  ∧ Forall plant_record_portable plant_sample
  ∧ get_plant_associated_kos (TextFile.reread true (plant_text "lineage" plant_sample)) =
      inr (list_to_map (reverse plant_sample)).
Proof.
  assert (TextFile.CR ∉ chars "lineage") as Hcr
    by (apply (bool_decide_unpack _); reflexivity).
  split; [exact header_no_newline|]. split; [exact Hcr|].
  split; [exact plant_sample_portable|].
  exact (proj1 (get_plant_associated_kos_round_trip true "lineage" plant_sample
                  header_no_newline Hcr plant_sample_portable)).
Defined.

Lemma get_plant_associated_kos_last_line_witness :
  get_plant_associated_kos
    (plant_text "lineage" plant_sample +:+ (("L3" +:+ String TAB "K7;K8") +:+ String "9" "")) =
    inr (<["L3" := if decide ("K7;K8" = "") then [] else split SEMI None "K7;K8"]>
           (list_to_map (reverse plant_sample))).
Proof.
  refine (get_plant_associated_kos_last_line "lineage" "L3" "K7;K8" "9" plant_sample
            header_no_newline plant_sample_ok _ _ _ _ _);
    apply (bool_decide_unpack _); reflexivity.
Defined.

Lemma abcd_header_distinct : NoDup (traits (__init__ abcd_table)).
Proof. apply (bool_decide_unpack _). reflexivity. Defined.

Lemma iter_well_formed_table_witness :
  __iter__ (__init__ abcd_table) =
    run_of (line_entry (traits (__init__ abcd_table))
              <$> tail (readlines (trait_table_f (__init__ abcd_table)))).
Proof.
  refine (iter_well_formed_table (__init__ abcd_table) abcd_header_distinct _).
  repeat constructor; eexists _, _; (split; [reflexivity|]); simpl; lia.
Defined.

Lemma iter_distinct_header_no_duplicate_error_witness :
  raised (__iter__ (__init__ long_row_table)) = Some IndexError
  ∧ (IndexError = IndexError ∨ IndexError = UnboundLocalError "name").
Proof.
  assert (raised (__iter__ (__init__ long_row_table)) = Some IndexError) as Hraised
    by reflexivity.
  split; [exact Hraised|].
  refine (iter_distinct_header_no_duplicate_error (__init__ long_row_table) IndexError
            _ Hraised).
  apply (bool_decide_unpack _). reflexivity.
Defined.

Lemma iter_long_row_ends_scan_witness :
  let fr0 := {| locals := None; out := [] |} in
  let fr1 := {| locals := Some ("w", "0"); out := [Yielded (entry1 "w" "t1" "0")] |} in
  finish (iter_lines ["t1"]
            ([table_line ["w"; "0"]] ++ table_line ["x"; "1"; "2"] :: [table_line ["y"; "3"]])
            fr0) =
    {| events := out fr1; raised := Some IndexError |}.
Proof.
  intros fr0 fr1.
  refine (iter_long_row_ends_scan ["t1"] [table_line ["w"; "0"]] [table_line ["y"; "3"]]
            (table_line ["x"; "1"; "2"]) "x" ("1" +:+ String TAB "2") fr0 fr1 _ _ _ _).
  - apply (bool_decide_unpack _). reflexivity.
  - reflexivity.
  - reflexivity.
  - simpl. lia.
Defined.

Lemma iter_entries_invariant_witness :
  (TAB ∉ chars (TraitTableEntry.name (entry1 "a" "t1" "1")))
  ∧ ∀ trait v, TraitTableEntry.traits (entry1 "a" "t1" "1") !! trait = Some v →
      trait ∈ traits (__init__ abcd_table) ∧ value_ok v.
Proof.
  refine (iter_entries_invariant (__init__ abcd_table) (entry1 "a" "t1" "1") _).
  assert (entries (__iter__ (__init__ abcd_table)) =
            [entry1 "a" "t1" "1"; entry1 "b" "t1" "2"; entry1 "c" "t1" "3";
             entry1 "d" "t1" "4"]) as -> by reflexivity.
  apply list_elem_of_here.
Defined.

Lemma get_subset_remove_exact_iff_witness :
  let es := [entry1 "a" "t1" "1"; entry1 "b" "t1" "2"; entry1 "c" "t1" "3"] in
  let last := entry1 "d" "t1" "4" in
  let src := run_of (es ++ [last]) in
  (entries (subset_of_run ["b"; "d"] true src)
     = filter (λ e, TraitTableEntry.name e ∉ ["b"; "d"]) (entries src)
   ↔ length (filter (λ e, TraitTableEntry.name e ∉ ["b"; "d"]) es) < length ["b"; "d"])
  ∧ length (filter (λ e, TraitTableEntry.name e ∉ ["b"; "d"]) (entries src))
    ≤ length (entries (subset_of_run ["b"; "d"] true src)).
Proof.
  intros es last src.
  refine (get_subset_remove_exact_iff ["b"; "d"] src es last _). reflexivity.
Defined.

Lemma get_subset_keep_exact_witness :
  let self := __init__ abcd_table in
  NoDup (TraitTableEntry.name <$> entries (__iter__ self))
  ∧ entries (get_subset self ["b"; "d"] false) =
      filter (λ e, TraitTableEntry.name e ∈ ["b"; "d"]) (entries (__iter__ self))
  ∧ entries (get_subset self ["b"; "d"] false) = [entry1 "b" "t1" "2"; entry1 "d" "t1" "4"].
Proof.
  intros self.
  assert (NoDup (TraitTableEntry.name <$> entries (__iter__ self))) as Hsrc
    by (apply (bool_decide_unpack _); vm_compute; exact I).
  split; [exact Hsrc|].
  destruct (get_subset_keep_exact self ["b"; "d"] Hsrc) as (Hexact & _).
  split; [exact Hexact|reflexivity].
Defined.

Lemma get_ordered_traits_sorted_permutation_witness :
  let self := {| trait_table_f := ""; entry_header := "OTU"; traits := ordered_example |} in
  let r := ["trait1"; "trait10"; "trait2"; "metadata_b"; "metadata_a"] in
  r ≡ₚ traits self
  ∧ ∀ i a c, r !! i = Some a → r !! S i = Some c → not_before (nat_sort true) a c.
Proof.
  intros self r.
  refine (get_ordered_traits_sorted_permutation self true r _). reflexivity.
Defined.

Lemma get_ordered_traits_digit_free_witness :
  ∃ r, get_ordered_traits
         {| trait_table_f := ""; entry_header := "OTU"; traits := ["beta"; "alpha"] |}
         true = inr r.
Proof.
  refine (get_ordered_traits_digit_free _ true _).
  repeat constructor.
Defined.

Lemma get_ordered_traits_type_error_witness :
  get_ordered_traits
    {| trait_table_f := ""; entry_header := "OTU"; traits := ["K1"; "KO"] |} false
    = inl TypeError
  ∧ get_ordered_traits
      {| trait_table_f := ""; entry_header := "OTU"; traits := ["KO"; "K1"] |} false
    = inl TypeError.
Proof.
  refine (get_ordered_traits_type_error "" "OTU" "K" "" "" "1" "O" 1 _ _); reflexivity.
Defined.

Lemma sample_entry_traits :
  TraitTableEntry.traits sample_entry =
    <["t2" := Text "lo w"]>
      (<["t1" := Numeric {| DecFloat.neg := false; DecFloat.mant := 25; DecFloat.scale := 1 |}]> ∅).
Proof. reflexivity. Defined.

Lemma sample_entry_lookup trait v :
  TraitTableEntry.traits sample_entry !! trait = Some v →
  (trait = "t1"
   ∧ v = Numeric {| DecFloat.neg := false; DecFloat.mant := 25; DecFloat.scale := 1 |})
  ∨ (trait = "t2" ∧ v = Text "lo w").
Proof.
  rewrite sample_entry_traits. intros Hv.
  destruct (decide ("t2" = trait)) as [<-|Hne2].
  - rewrite lookup_insert_eq in Hv. injection Hv as <-. by right.
  - rewrite lookup_insert_ne in Hv by done.
    destruct (decide ("t1" = trait)) as [<-|Hne1].
    + rewrite lookup_insert_eq in Hv. injection Hv as <-. by left.
    + rewrite lookup_insert_ne in Hv by done. by rewrite lookup_empty in Hv.
Defined.

Lemma write_entry_fields_and_warnings_witness :
  let order := ["t1"; "t3"; "t2"] in
  (write_entry sample_entry "" order).2 = [missing_msg sample_entry "t3"]
  ∧ ∃ content,
      (write_entry sample_entry "" order).1 = "" +:+ content +:+ String NL ""
      ∧ split TAB None content = ["x"; "2.5"; "NA"; "lo w"].
Proof.
  intros order.
  destruct (write_entry_fields_and_warnings sample_entry "" order) as (Hlog & content & Hrow & Hsplit).
  - apply (bool_decide_unpack _). reflexivity.
  - intros trait v _ Hv.
    destruct (sample_entry_lookup trait v Hv) as [[_ ->]|[_ ->]];
      apply (bool_decide_unpack _); reflexivity.
  - split; [exact Hlog|]. exists content. split; [exact Hrow|exact Hsplit].
Defined.

Lemma sample_entry_writable : writable ["t1"; "t2"] sample_entry.
Proof.
  split; [reflexivity|]. split; [|split].
  - intros trait. split.
    + intros Hin. apply list_elem_of_In in Hin. simpl in Hin.
      destruct Hin as [<-|[<-|[]]]; eexists; reflexivity.
    + intros [v Hv]. destruct (sample_entry_lookup trait v Hv) as [[-> _]|[-> _]].
      * apply list_elem_of_here.
      * apply list_elem_of_further, list_elem_of_here.
  - intros trait v Hv.
    destruct (sample_entry_lookup trait v Hv) as [[_ ->]|[_ ->]]; split; reflexivity.
  - intros trait v _ Hv.
    destruct (sample_entry_lookup trait v Hv) as [[_ ->]|[_ ->]]; reflexivity.
Defined.

Lemma table_round_trip_witness :
  let self := __init__ (TextFile.reread true
                          (write_entries [sample_entry] (header_line "#OTU" ["t1"; "t2"])
                             ["t1"; "t2"])) in
  traits self = ["t1"; "t2"]
  ∧ entry_header self = replace HASH "" "#OTU"
  ∧ __iter__ self = run_of [sample_entry].
Proof.
  intros self.
  destruct (table_round_trip true "#OTU" ["t1"; "t2"] [sample_entry])
    as (Htraits & Hheader & Hiter & _).
  - discriminate.
  - apply (bool_decide_unpack _). reflexivity.
  - reflexivity.
  - repeat constructor.
  - intros trait Hlast. injection Hlast as <-. reflexivity.
  - constructor; [exact sample_entry_writable|constructor].
  - split; [exact Htraits|]. split; [exact Hheader|exact Hiter].
Defined.

Import PicrustExecuter.

Lemma predict_traits_wf_accounting_witness :
  ∃ r w',
    predict_traits_wf "tree.newick" "traits.tab" "trait" None world0 = (r, w')
    ∧ match r with
      | inr (job_name, predict_out) =>
          job_id w' = (job_id world0 + 1)%N
          ∧ job_name = job_name_of (job_id world0)
          ∧ ("trait" = "trait" ∨ "trait" = "marker")
          ∧ base_path None ∈ dirs w'
          ∧ ∃ super_command,
              calls w' = calls world0 ++ [bsub_argv (base_path None) job_name super_command]
      | inl e =>
          job_id w' = job_id world0
          ∧ (calls w' = calls world0
             ∨ ∃ argv, calls w' = calls world0 ++ [argv] ∧ call argv = Some e)
      end.
Proof.
  destruct (predict_traits_wf "tree.newick" "traits.tab" "trait" None world0) as [r w'] eqn:Hrun.
  exists r, w'. split; [reflexivity|].
  exact (predict_traits_wf_accounting "tree.newick" "traits.tab" "trait" None world0 w' r Hrun).
Defined.

Lemma predict_traits_wf_rejected_type_witness :
  ∃ e w',
    predict_traits_wf "tree.newick" "traits.tab" "gene" None world0 = (inl e, w')
    ∧ job_id w' = job_id world0 ∧ calls w' = calls world0
    ∧ (base_path None ∈ dirs world0 ∨ mkdir (dirs world0) (base_path None) = None →
       e = ValueError type_msg ∧ dirs w' = {[base_path None]} ∪ dirs world0).
Proof.
  refine (predict_traits_wf_rejected_type "tree.newick" "traits.tab" "gene" None world0 _ _);
    discriminate.
Defined.

Lemma predict_traits_wf_fresh_names_witness :
  ∃ x y w1 w2,
    predict_traits_wf "tree.newick" "traits.tab" "trait" None world0 = (inr x, w1)
    ∧ predict_traits_wf "tree.newick" "markers.tab" "marker" None w1 = (inr y, w2)
    ∧ x.1 = "picrust_cmd0" ∧ y.1 = "picrust_cmd1"
    ∧ x.1 ≠ y.1 ∧ job_id w2 = (job_id world0 + 2)%N.
Proof.
  set (run1 := predict_traits_wf "tree.newick" "traits.tab" "trait" None world0).
  set (w1 := run1.2).
  set (x := match run1.1 with inr x => x | inl _ => ("", "") end).
  set (run2 := predict_traits_wf "tree.newick" "markers.tab" "marker" None w1).
  set (w2 := run2.2).
  set (y := match run2.1 with inr y => y | inl _ => ("", "") end).
  assert (run1 = (inr x, w1)) as H1 by reflexivity.
  assert (run2 = (inr y, w2)) as H2 by reflexivity.
  exists x, y, w1, w2. split; [exact H1|]. split; [exact H2|].
  split; [reflexivity|]. split; [reflexivity|].
  exact (predict_traits_wf_fresh_names "tree.newick" "traits.tab" "trait"
           "tree.newick" "markers.tab" "marker" None None world0 w1 w2 x y H1 H2).
Defined.

Lemma predict_metagenome_name_reused_witness :
  ∃ x y w1 w2 inst1,
    predict_metagenome "otus.biom" "copies.tab" "traits.tab" None (world0, None)
      = (inr x, (w1, inst1))
    ∧ predict_traits_wf "tree.newick" "traits.tab" "trait" None w1 = (inr y, w2)
    ∧ x.1 = "picrust_cmd0"
    ∧ job_id w1 = job_id world0
    ∧ inst1 = Some (job_id world0 + 1)%N
    ∧ y.1 = x.1.
Proof.
  set (run1 := predict_metagenome "otus.biom" "copies.tab" "traits.tab" None (world0, None)).
  set (w1 := run1.2.1).
  set (inst1 := run1.2.2).
  set (x := match run1.1 with inr x => x | inl _ => ("", "") end).
  set (run2 := predict_traits_wf "tree.newick" "traits.tab" "trait" None w1).
  set (w2 := run2.2).
  set (y := match run2.1 with inr y => y | inl _ => ("", "") end).
  assert (run1 = (inr x, (w1, inst1))) as H1 by reflexivity.
  assert (run2 = (inr y, w2)) as H2 by reflexivity.
  exists x, y, w1, w2, inst1. split; [exact H1|]. split; [exact H2|].
  split; [reflexivity|].
  exact (predict_metagenome_name_reused "otus.biom" "copies.tab" "traits.tab"
           "tree.newick" "traits.tab" "trait" None None world0 w1 w2 inst1 x y H1 H2).
Defined.

End MoreClosed.
